(** * Frame-busting detector and rewriter: a shallow embedding of [src/main.py]

    The Python module fetches one page, detects frame-busting idioms with a
    fixed catalogue of regular expressions, rewrites inline scripts and
    [meta] elements, and reports whether the page can be shown in an iframe.

    Modelling decisions, valid for the whole development:
    - a Python [str] is a [string]; its characters are the code points
      below 256, and case folding, [str.lower] and [\s] are Python's on that
      range (the literals of the catalogue are all ASCII);
    - the patterns of the catalogue are kept as the source writes them and
      are compiled by [Re.compile], a parser for the fragment of Python's
      [re] syntax that the module uses (single-character atoms, each with an
      optional [*] or [?]); matching is the backtracking, leftmost, greedy
      search of [re], and [re.sub] replaces the matches from left to right;
    - a BeautifulSoup document is a forest of [Soup.Node]; the functions
      that mutate the document in place return the document after the call
      together with their result; the list of modifications is threaded
      through the loops that append to it;
    - the HTML parser, the serializer and the HTTP client are libraries and
      are parameters; the walk over the [meta] elements relies on what the
      parser gives: [meta] is a void element and has no children. *)

From Stdlib Require Import List Bool Arith Lia Ascii String NArith.
Import ListNotations.

Local Open Scope string_scope.
Local Open Scope list_scope.


(** ** Python's [str] operations used by the module *)

Module Str.

Definition code (c : ascii) : N := N_of_ascii c.

(** [str.lower] on one code point below 256: the ASCII capitals and the
    Latin-1 capitals (0xC0 to 0xDE, the multiplication sign apart). *)
Definition lower_char (c : ascii) : ascii :=
  let n := code c in
  if ((65 <=? n) && (n <=? 90) || (192 <=? n) && (n <=? 222) && negb (n =? 215))%N
  then ascii_of_N (n + 32) else c.

(** [str.isspace] on one code point below 256, which is also what [\s]
    accepts in a [str] pattern. *)
Definition is_space (c : ascii) : bool :=
  let n := code c in
  ((9 <=? n) && (n <=? 13) || (28 <=? n) && (n <=? 32) || (n =? 133) || (n =? 160))%N.

Definition is_alnum (c : ascii) : bool :=
  let n := code c in
  ((48 <=? n) && (n <=? 57) || (65 <=? n) && (n <=? 90) || (97 <=? n) && (n <=? 122))%N.

Definition chars (s : string) : list ascii := list_ascii_of_string s.
Definition of_chars (l : list ascii) : string := string_of_list_ascii l.

Definition lower (s : string) : string := of_chars (map lower_char (chars s)).

Fixpoint starts_with (p s : list ascii) : bool :=
  match p, s with
  | [], _ => true
  | a :: p', b :: s' => Ascii.eqb a b && starts_with p' s'
  | _ :: _, [] => false
  end.

Fixpoint contains_chars (needle hay : list ascii) : bool :=
  starts_with needle hay ||
  match hay with
  | [] => false
  | _ :: hay' => contains_chars needle hay'
  end.

(** [needle in hay] *)
Definition contains (needle hay : string) : bool :=
  contains_chars (chars needle) (chars hay).

Definition mem_char (c : ascii) (set : list ascii) : bool :=
  existsb (Ascii.eqb c) set.

Fixpoint lstrip_chars (set s : list ascii) : list ascii :=
  match s with
  | [] => []
  | c :: s' => if mem_char c set then lstrip_chars set s' else s
  end.

Definition rstrip_chars (set s : list ascii) : list ascii :=
  rev (lstrip_chars set (rev s)).

(** [s.strip(set)]: the characters of [set] are removed from both ends. *)
Definition strip (set s : string) : string :=
  of_chars (rstrip_chars (chars set) (lstrip_chars (chars set) (chars s))).

(** Truthiness of a [str]. *)
Definition truthy (s : string) : bool :=
  match s with EmptyString => false | _ => true end.

End Str.

(** ** The fragment of Python's [re] that the module uses *)

Module Re.

Import Str.

Inductive charset :=
| Literal (c : ascii)       (* an ordinary or escaped character *)
| NotLiteral (c : ascii)    (* [[^c]] *)
| Whitespace                (* [\s] *)
| AnyChar.                  (* [.] *)

Inductive repeat := Once | Optional | ZeroOrMore.

(** A compiled pattern: a sequence of single-character atoms, each with its
    quantifier. *)
Definition regex := list (charset * repeat).

Record flags := Flags { IGNORECASE : bool; DOTALL : bool }.

Definition no_flags := Flags false false.
Definition I := Flags true false.
Definition I_S := Flags true true.

Definition newline : ascii := ascii_of_N 10.

Definition same_char (f : flags) (c x : ascii) : bool :=
  if IGNORECASE f then Ascii.eqb (lower_char x) (lower_char c) else Ascii.eqb x c.

Definition accepts (f : flags) (a : charset) (x : ascii) : bool :=
  match a with
  | Literal c => same_char f c x
  | NotLiteral c => negb (same_char f c x)
  | Whitespace => is_space x
  | AnyChar => DOTALL f || negb (Ascii.eqb x newline)
  end.

(** *** Parsing a pattern *)

Inductive token := TAtom (a : charset) | TStar | TOpt.

Definition push (t : token) (r : option (list token)) : option (list token) :=
  option_map (cons t) r.

Definition is_meta (c : ascii) : bool :=
  mem_char c (chars "[]()|+{^$\*?.").

Fixpoint lex (p : list ascii) : option (list token) :=
  match p with
  | [] => Some []
  | c :: p1 =>
      if Ascii.eqb c "\" then
        match p1 with
        | d :: p2 =>
            if Ascii.eqb d "s" then push (TAtom Whitespace) (lex p2)
            else if is_alnum d then None
            else push (TAtom (Literal d)) (lex p2)
        | [] => None
        end
      else if Ascii.eqb c "[" then
        match p1 with
        | a :: b :: e :: p4 =>
            if Ascii.eqb a "^" && Ascii.eqb e "]" && negb (Ascii.eqb b "\")
               && negb (Ascii.eqb b "]")
            then push (TAtom (NotLiteral b)) (lex p4) else None
        | _ => None
        end
      else if Ascii.eqb c "*" then push TStar (lex p1)
      else if Ascii.eqb c "?" then push TOpt (lex p1)
      else if Ascii.eqb c "." then push (TAtom AnyChar) (lex p1)
      else if is_meta c then None
      else push (TAtom (Literal c)) (lex p1)
  end.

Definition item (a : charset) (q : repeat) (r : option regex) : option regex :=
  option_map (cons (a, q)) r.

Fixpoint group (ts : list token) : option regex :=
  match ts with
  | [] => Some []
  | TAtom a :: ts1 =>
      match ts1 with
      | TStar :: ts2 => item a ZeroOrMore (group ts2)
      | TOpt :: ts2 => item a Optional (group ts2)
      | _ => item a Once (group ts1)
      end
  | _ => None
  end.

(** [re.compile] on the supported fragment; [None] is [re.error] or a
    pattern outside the fragment. *)
Definition compile (pattern : string) : option regex :=
  match lex (chars pattern) with
  | Some ts => group ts
  | None => None
  end.

(** *** Matching *)

(** The backtracking matcher anchored at the start of [s]: the rest of the
    text after the match that Python finds, greedy choices first. *)
Fixpoint match_here (f : flags) (r : regex) (s : list ascii) {struct r}
  : option (list ascii) :=
  match r with
  | [] => Some s
  | (a, Once) :: r' =>
      match s with
      | x :: s' => if accepts f a x then match_here f r' s' else None
      | [] => None
      end
  | (a, Optional) :: r' =>
      match s with
      | x :: s' =>
          if accepts f a x then
            match match_here f r' s' with
            | Some rest => Some rest
            | None => match_here f r' s
            end
          else match_here f r' s
      | [] => match_here f r' s
      end
  | (a, ZeroOrMore) :: r' =>
      (fix star (s : list ascii) : option (list ascii) :=
         match s with
         | x :: s' =>
             if accepts f a x then
               match star s' with
               | Some rest => Some rest
               | None => match_here f r' s
               end
             else match_here f r' s
         | [] => match_here f r' s
         end) s
  end.

(** [re.search]: is there a match starting at some position. *)
Fixpoint search (f : flags) (r : regex) (s : list ascii) : bool :=
  match match_here f r s with
  | Some _ => true
  | None =>
      match s with
      | [] => false
      | _ :: s' => search f r s'
      end
  end.

(** [re.sub] with a literal replacement: every match, left to right and
    without overlap, is replaced.  [skip] counts the characters of the
    current match that are still to be dropped; an empty match puts the
    replacement in front of the next character and moves on, as Python
    does. *)
Fixpoint sub_from (f : flags) (r : regex) (repl : list ascii) (skip : nat)
  (s : list ascii) : list ascii :=
  match s with
  | [] =>
      match skip, match_here f r [] with
      | 0, Some _ => repl
      | _, _ => []
      end
  | x :: s' =>
      match skip with
      | S k => sub_from f r repl k s'
      | 0 =>
          match match_here f r s with
          | Some rest =>
              match List.length s - List.length rest with
              | 0 => repl ++ x :: sub_from f r repl 0 s'
              | S k => repl ++ sub_from f r repl k s'
              end
          | None => x :: sub_from f r repl 0 s'
          end
      end
  end.

Definition sub (f : flags) (r : regex) (repl s : list ascii) : list ascii :=
  sub_from f r repl 0 s.

(** The module-level functions [re.search(pattern, string, flags)] and
    [re.sub(pattern, repl, string, flags=flags)].  A pattern that does not
    compile raises in Python; every pattern of the module compiles (see
    [patterns_compile] below), so that branch is never taken. *)
Definition re_search (pattern text : string) (f : flags) : bool :=
  match compile pattern with
  | Some r => search f r (chars text)
  | None => false
  end.

Definition re_sub (pattern repl text : string) (f : flags) : string :=
  match compile pattern with
  | Some r => of_chars (sub f r (chars repl) (chars text))
  | None => text
  end.

End Re.

Import Str Re.

(** ** The BeautifulSoup document *)

Module Soup.

(** An element with its attribute dictionary (in insertion order) and its
    children, or a text node. *)
#[local] Unset Elimination Schemes.
Inductive Node :=
| Tag (name : string) (attrs : list (string * string)) (contents : list Node)
| NavigableString (s : string).
#[local] Set Elimination Schemes.

(** The children of the [BeautifulSoup] object. *)
Definition Document := list Node.

(** [tag.get(key, default)] *)
Fixpoint get (attrs : list (string * string)) (key default : string) : string :=
  match attrs with
  | [] => default
  | (k, v) :: attrs' => if String.eqb k key then v else get attrs' key default
  end.

(** [tag[key] = value]: the value of an existing key is replaced where it
    stands, a new key goes to the end. *)
Fixpoint set (attrs : list (string * string)) (key value : string)
  : list (string * string) :=
  match attrs with
  | [] => [(key, value)]
  | (k, v) :: attrs' =>
      if String.eqb k key then (k, value) :: attrs'
      else (k, v) :: set attrs' key value
  end.

(** [find_all(name)]: the elements called [name], in document order. *)
Fixpoint find_all_node (name : string) (n : Node) : list Node :=
  match n with
  | NavigableString _ => []
  | Tag nm _ contents =>
      (if String.eqb nm name then [n] else []) ++
      flat_map (find_all_node name) contents
  end.

Definition find_all (name : string) (soup : Document) : list Node :=
  flat_map (find_all_node name) soup.

(** The [.string] of a node: a text node is its own string, an element
    with exactly one child has the string of that child, any other element
    has none. *)
Fixpoint node_string (n : Node) : option string :=
  match n with
  | NavigableString s => Some s
  | Tag _ _ [c] => node_string c
  | Tag _ _ _ => None
  end.

Definition attrs_of (n : Node) : list (string * string) :=
  match n with
  | Tag _ a _ => a
  | NavigableString _ => []
  end.

End Soup.

Import Soup.

(** ** [detect_frame_busting_patterns] *)

Definition patterns : list string :=
  [ "if\s*\(\s*window\s*!==?\s*window\.top\s*\)";
    "if\s*\(\s*self\s*!==?\s*top\s*\)";
    "if\s*\(\s*parent\s*!==?\s*window\s*\)";
    "window\.top\.location\s*=\s*window\.location";
    "parent\.location\s*=\s*self\.location";
    "top\.location\s*=\s*location";
    "window\.top\.location\.href\s*=\s*window\.location\.href";
    "if\s*\(\s*top\s*!==?\s*self\s*\)";
    "if\s*\(\s*window\.frameElement\s*\)";
    "if\s*\(\s*window\.parent\s*!==?\s*window\s*\)";
    "top\.location\.replace\(";
    "window\.top\.location\.replace\(";
    "break\s*out\s*of\s*frame";
    "framekiller";
    "framebreaker" ].

(** The loop appends every pattern that is found, in the order of the
    list. *)
Definition detect_frame_busting_patterns (html_content : string) : list string :=
  filter (fun pattern => re_search pattern html_content I) patterns.

(** ** [sanitize_javascript] *)

Definition removed : string := "// Frame busting code removed".

Definition frame_busting_patterns : list (string * string) :=
  [ ("if\s*\(\s*window\s*!==?\s*window\.top\s*\)[^}]*}", removed);
    ("if\s*\(\s*self\s*!==?\s*top\s*\)[^}]*}", removed);
    ("if\s*\(\s*parent\s*!==?\s*window\s*\)[^}]*}", removed);
    ("window\.top\.location\s*=\s*[^;]*;", removed);
    ("parent\.location\s*=\s*[^;]*;", removed);
    ("top\.location\s*=\s*[^;]*;", removed);
    ("if\s*\(\s*top\s*!==?\s*self\s*\)[^}]*}", removed);
    ("if\s*\(\s*window\.frameElement\s*\)[^}]*}", removed);
    ("if\s*\(\s*window\.parent\s*!==?\s*window\s*\)[^}]*}", removed);
    ("top\.location\.replace\([^)]*\);?", removed);
    ("window\.top\.location\.replace\([^)]*\);?", removed) ].

Definition removed_message (pattern : string) : string :=
  String.append "Removed frame-busting pattern: " pattern.

(** The inner loop over the patterns: the text and the list of
    modifications are threaded through. *)
Fixpoint apply_patterns (ps : list (string * string)) (modified_content : string)
  (modifications : list string) : string * list string :=
  match ps with
  | [] => (modified_content, modifications)
  | (pattern, replacement) :: ps' =>
      if re_search pattern modified_content I_S then
        apply_patterns ps'
          (re_sub pattern replacement modified_content I_S)
          (modifications ++ [removed_message pattern])
      else apply_patterns ps' modified_content modifications
  end.

(** The body of the outer loop for one element of [find_all('script')]:
    the new text to store in the element, if any, and the list of
    modifications. *)
Definition sanitize_script (script : Node) (modifications : list string)
  : option string * list string :=
  match node_string script with
  | Some original_content =>
      if truthy original_content then
        let '(modified_content, modifications) :=
          apply_patterns frame_busting_patterns original_content modifications in
        if String.eqb modified_content original_content
        then (None, modifications)
        else (Some modified_content, modifications)
      else (None, modifications)
  | None => (None, modifications)
  end.

(** The loop over [find_all('script')] as a walk in document order.  The
    list was taken before the loop, so the scripts below a script are
    visited whether or not [script.string = ...] has replaced the children
    of their ancestor; an HTML parser gives a script text children only. *)
Fixpoint sanitize_node (n : Node) (modifications : list string) {struct n}
  : Node * list string :=
  match n with
  | NavigableString _ => (n, modifications)
  | Tag name attrs contents =>
      let '(new_string, modifications) :=
        if String.eqb name "script" then sanitize_script n modifications
        else (None, modifications) in
      let '(contents', modifications) :=
        (fix walk (l : list Node) (modifications : list string) :=
           match l with
           | [] => ([], modifications)
           | c :: l' =>
               let '(c', modifications) := sanitize_node c modifications in
               let '(l'', modifications) := walk l' modifications in
               (c' :: l'', modifications)
           end) contents modifications in
      match new_string with
      | Some modified_content =>
          (Tag name attrs [NavigableString modified_content], modifications)
      | None => (Tag name attrs contents', modifications)
      end
  end.

Fixpoint sanitize_nodes (l : list Node) (modifications : list string)
  : list Node * list string :=
  match l with
  | [] => ([], modifications)
  | c :: l' =>
      let '(c', modifications) := sanitize_node c modifications in
      let '(l'', modifications) := sanitize_nodes l' modifications in
      (c' :: l'', modifications)
  end.

(** The document after the call and the list that the call returns. *)
Definition sanitize_javascript (soup : Document) : Document * list string :=
  sanitize_nodes soup [].

(** ** [clean_meta_tags] *)

(** What the body of the loop does to one [meta] element. *)
Inductive meta_step :=
| Decompose (message : string)
| SetContent (new_content message : string)
| Leave.

Definition clean_meta (attrs : list (string * string)) : meta_step :=
  if String.eqb (lower (get attrs "http-equiv" "")) "x-frame-options" then
    Decompose "Removed X-Frame-Options meta tag"
  else if String.eqb (lower (get attrs "http-equiv" "")) "content-security-policy" then
    let content := get attrs "content" "" in
    if contains "frame-ancestors" (lower content) then
      let new_content := re_sub "frame-ancestors[^;]*;?" "" content I in
      let new_content := re_sub ";\s*;" ";" new_content no_flags in
      let new_content := strip "; " new_content in
      if truthy new_content then
        SetContent new_content "Modified CSP meta tag to remove frame-ancestors"
      else Decompose "Removed CSP meta tag"
    else Leave
  else Leave.

(** The loop over [find_all('meta')] as a walk in document order; [None]
    is a decomposed element.  [meta] is a void element: the parser gives it
    no children, and a decomposed element goes with all that is below
    it. *)
Fixpoint clean_node (n : Node) (modifications : list string) {struct n}
  : option Node * list string :=
  match n with
  | NavigableString _ => (Some n, modifications)
  | Tag name attrs contents =>
      let walk :=
        fix walk (l : list Node) (modifications : list string) :=
          match l with
          | [] => ([], modifications)
          | c :: l' =>
              let '(c', modifications) := clean_node c modifications in
              let '(l'', modifications) := walk l' modifications in
              (match c' with Some c'' => c'' :: l'' | None => l'' end,
               modifications)
          end in
      match (if String.eqb name "meta" then clean_meta attrs else Leave) with
      | Decompose message => (None, modifications ++ [message])
      | SetContent new_content message =>
          let '(contents', modifications) :=
            walk contents (modifications ++ [message]) in
          (Some (Tag name (set attrs "content" new_content) contents'),
           modifications)
      | Leave =>
          let '(contents', modifications) := walk contents modifications in
          (Some (Tag name attrs contents'), modifications)
      end
  end.

Fixpoint clean_nodes (l : list Node) (modifications : list string)
  : list Node * list string :=
  match l with
  | [] => ([], modifications)
  | c :: l' =>
      let '(c', modifications) := clean_node c modifications in
      let '(l'', modifications) := clean_nodes l' modifications in
      (match c' with Some c'' => c'' :: l'' | None => l'' end, modifications)
  end.

Definition clean_meta_tags (soup : Document) : Document * list string :=
  clean_nodes soup [].

(** ** [assess_iframe_compatibility] and [main] *)

Section Collaborators.

(** [BeautifulSoup(text, 'html.parser')] and [str(soup)]. *)
Variable parse : string -> Document.
Variable serialize : Document -> string.

(** The loop over the [meta] elements, with its two early returns; after
    the loop the verdict is that of the detector. *)
Fixpoint assess_loop (meta_tags : list Node) (remaining_patterns : list string)
  : bool :=
  match meta_tags with
  | [] => Nat.eqb (List.length remaining_patterns) 0
  | meta :: meta_tags' =>
      if String.eqb (lower (get (attrs_of meta) "http-equiv" "")) "x-frame-options"
      then false
      else if String.eqb (lower (get (attrs_of meta) "http-equiv" ""))
                "content-security-policy"
              && (contains "frame-ancestors" (lower (get (attrs_of meta) "content" ""))
                  && contains "'none'" (lower (get (attrs_of meta) "content" "")))
      then false
      else assess_loop meta_tags' remaining_patterns
  end.

Definition assess_iframe_compatibility (html_content : string) : bool :=
  let remaining_patterns := detect_frame_busting_patterns html_content in
  let soup := parse html_content in
  let meta_tags := find_all "meta" soup in
  assess_loop meta_tags remaining_patterns.

(** The outcome of [client.get] followed by [raise_for_status]: the text
    of the response, or an exception [e] of which only [str(e)] is used. *)
Inductive fetched :=
| Response (text : string)
| Raised (str_e : string).

Variable fetch : string -> fetched.

(** The dictionary handed to [Actor.push_data]; [error] is a key of the
    error result only, [html_content] is [None] there. *)
Record result := Result {
  url : string;
  error : option string;
  html_content : option string;
  iframe_compatible : bool;
  original_blocked : bool;
  modifications_made : list string;
  original_frame_busting_patterns : list string
}.

(** How a run ends: [Actor.exit()] without a result, or one result pushed
    and a normal return. *)
Inductive outcome :=
| Exited
| Pushed (r : result).

Definition process (u original_html : string) : result :=
  let original_blocked := negb (assess_iframe_compatibility original_html) in
  let soup := parse original_html in
  let '(soup, js_modifications) := sanitize_javascript soup in
  let all_modifications := [] ++ js_modifications in
  let '(soup, meta_modifications) := clean_meta_tags soup in
  let all_modifications := all_modifications ++ meta_modifications in
  let processed_html := serialize soup in
  let iframe_compatible := assess_iframe_compatibility processed_html in
  Result u None (Some processed_html) iframe_compatible original_blocked
    all_modifications (detect_frame_busting_patterns original_html).

Definition main (input_url : option string) : outcome :=
  match input_url with
  | None => Exited
  | Some u =>
      if truthy u then
        match fetch u with
        | Response original_html => Pushed (process u original_html)
        | Raised str_e => Pushed (Result u (Some str_e) None false true [] [])
        end
      else Exited
  end.

End Collaborators.

(** * Definitions for the statements and the proofs *)

(** ** Induction on documents *)

(** The induction principle for a forest: the property holds of an
    element when it holds of all its children. *)

Section NodeInduction.

Variable P : Node -> Prop.
Hypothesis P_string : forall s, P (NavigableString s).
Hypothesis P_tag :
  forall name attrs contents, Forall P contents -> P (Tag name attrs contents).

Fixpoint Node_ind (n : Node) : P n :=
  match n with
  | NavigableString s => P_string s
  | Tag name attrs contents =>
      P_tag name attrs contents
        ((fix all (l : list Node) : Forall P l :=
            match l with
            | [] => Forall_nil P
            | c :: l' => Forall_cons c (Node_ind c) (all l')
            end) contents)
  end.

End NodeInduction.

(** ** What the assessor looks for *)

(** The [http-equiv] of the element is [x-frame-options] up to case. *)
Definition is_x_frame_options (meta : Node) : Prop :=
  lower (get (attrs_of meta) "http-equiv" "") = "x-frame-options".

(** The [http-equiv] of the element is [content-security-policy] up to
    case and its [content] contains both [frame-ancestors] and ['none'] up
    to case. *)
Definition is_blocking_csp (meta : Node) : Prop :=
  lower (get (attrs_of meta) "http-equiv" "") = "content-security-policy" /\
  contains "frame-ancestors" (lower (get (attrs_of meta) "content" "")) = true /\
  contains "'none'" (lower (get (attrs_of meta) "content" "")) = true.

(** No [meta] element of the forest is an [x-frame-options] one. *)
Definition none_is_x_frame_options (l : list Node) : Prop :=
  forall meta, In meta (find_all "meta" l) -> ~ is_x_frame_options meta.

(** ** Inputs and collaborators of the instances *)

(** The script of scenario A. *)
Definition guard_script : string :=
  "if (window !== window.top) { top.location = location; }".

(** The attributes of a [meta] element that is none of the normalizer's. *)
Definition viewport_attrs : list (string * string) :=
  [("name", "viewport"); ("content", "width=device-width")].

(** The attributes of the element of scenario C. *)
Definition scenario_c_attrs : list (string * string) :=
  [("http-equiv", "Content-Security-Policy");
   ("content", "default-src 'self'; frame-ancestors 'none'")].

(** A parser that knows text only: no markup, one text node. *)
Definition text_only_parser (text : string) : Document :=
  if truthy text then [NavigableString text] else [].

(** A fetch that raises an exception with the given message for every
    address. *)
Definition timed_out (message : string) (u : string) : fetched := Raised message.

(** ** Signatures *)

(** The pattern matches at the start of the text. *)
Definition matches (f : flags) (r : regex) (s : list ascii) : bool :=
  match match_here f r s with Some _ => true | None => false end.










(** ** The normalizer *)


(** What is left of a directive after its name: the text behind the first
    [;], or nothing when there is none. *)
Fixpoint after_semicolon (s : list ascii) : list ascii :=
  match s with
  | [] => []
  | c :: s' => if Ascii.eqb c ";" then s' else after_semicolon s'
  end.

(** The compiled signature [frame-ancestors[^;]*;?]. *)
Definition directive : regex :=
  map (fun c => (Literal c, Once)) (chars "frame-ancestors") ++
  [(NotLiteral ";", ZeroOrMore); (Literal ";", Optional)].

(** The [http-equiv] values that the normalizer looks for. *)
Definition is_target (attrs : list (string * string)) : bool :=
  String.eqb (lower (get attrs "http-equiv" "")) "x-frame-options"
  || String.eqb (lower (get attrs "http-equiv" "")) "content-security-policy".

(** The document without its [meta] elements of these two kinds. *)
Fixpoint erase_node (n : Node) : option Node :=
  match n with
  | NavigableString _ => Some n
  | Tag name attrs contents =>
      if String.eqb name "meta" && is_target attrs then None
      else
        Some (Tag name attrs
                ((fix erase (l : list Node) : list Node :=
                    match l with
                    | [] => []
                    | c :: l' =>
                        match erase_node c with
                        | Some c' => c' :: erase l'
                        | None => erase l'
                        end
                    end) contents))
  end.

Fixpoint erase_nodes (l : list Node) : list Node :=
  match l with
  | [] => []
  | c :: l' =>
      match erase_node c with
      | Some c' => c' :: erase_nodes l'
      | None => erase_nodes l'
      end
  end.

Definition erase_opt (o : option Node) : option Node :=
  match o with
  | Some n => erase_node n
  | None => None
  end.

(** ** Words of a pattern, and signatures that are safe with the replacement *)

(** [Word f r w]: [w] is one of the texts that the pattern [r] matches in
    full.  The matcher explores these texts in its order of preference. *)
Inductive Word (f : flags) : regex -> list ascii -> Prop :=
| Word_nil : Word f [] []
| Word_once a r x w :
    accepts f a x = true -> Word f r w -> Word f ((a, Once) :: r) (x :: w)
| Word_optional_skip a r w :
    Word f r w -> Word f ((a, Optional) :: r) w
| Word_optional_take a r x w :
    accepts f a x = true -> Word f r w -> Word f ((a, Optional) :: r) (x :: w)
| Word_star_skip a r w :
    Word f r w -> Word f ((a, ZeroOrMore) :: r) w
| Word_star_take a r x w :
    accepts f a x = true -> Word f ((a, ZeroOrMore) :: r) w ->
    Word f ((a, ZeroOrMore) :: r) (x :: w).

(** The characters that some atom of the pattern accepts. *)
Definition in_alphabet (f : flags) (r : regex) (x : ascii) : bool :=
  existsb (fun i => accepts f (fst i) x) r.

(** Every character, for properties that are checked on all of them. *)
Definition all_ascii : list ascii := map ascii_of_nat (seq 0 256).

(** Every atom of the pattern may be left out. *)
Definition nullable (post : regex) : bool :=
  forallb (fun i => match snd i with Once => false | _ => true end) post.

(** The end of a rewrite signature: [[^c]*c] and what may follow. *)
Definition guarded (c : ascii) (post : regex) : regex :=
  (NotLiteral c, ZeroOrMore) :: (Literal c, Once) :: post.

(** A rewrite signature: a head, then [[^c]*c] and what may follow. *)
Definition signature (head : regex) (c : ascii) (post : regex) : regex :=
  head ++ guarded c post.

(** No place of [m] where the two first atoms of a signature match: the
    last character of [m] is not one for the first atom, nor are two
    characters in a row of [m] ones for the first and for the second. *)
Fixpoint no_pair (f : flags) (a1 a2 : charset) (m : list ascii) : bool :=
  match m with
  | [] => true
  | x :: m' =>
      negb (accepts f a1 x &&
            match m' with [] => true | y :: _ => accepts f a2 y end)
      && no_pair f a1 a2 m'
  end.

(** What makes a signature [head ++ guarded c post] and the replacement
    text [marker] safe to use together. *)
Definition safe (f : flags) (head : regex) (c : ascii) (post : regex)
  (marker : list ascii) : bool :=
  nullable post
  && forallb (fun x => negb (in_alphabet f head x && same_char f c x)) all_ascii
  && negb (existsb (same_char f c) marker)
  && match head with
     | (a1, Once) :: (a2, Once) :: _ => no_pair f a1 a2 marker
     | _ => false
     end
  && match marker with
     | first :: _ => negb (in_alphabet f head first)
     | [] => false
     end.

(** The head, the closing character and the rest of a signature that ends
    in [[^c]*c]. *)
Fixpoint shape_of (r : regex) : option (regex * ascii * regex) :=
  match r with
  | [] => None
  | i :: r' =>
      match i, r' with
      | (NotLiteral c, ZeroOrMore), (Literal d, Once) :: post =>
          if Ascii.eqb c d then Some ([], c, post) else None
      | _, _ =>
          match shape_of r' with
          | Some (head, c, post) => Some (i :: head, c, post)
          | None => None
          end
      end
  end.

(** The pattern compiles to a signature that is safe with the replacement
    text of the catalogue, under the flags of the rewriter. *)
Definition safe_signature (pattern : string) : bool :=
  match compile pattern with
  | Some r =>
      match shape_of r with
      | Some (head, c, post) => safe I_S head c post (chars removed)
      | None => false
      end
  | None => false
  end.

(** No signature of [ps] matches the text. *)
Definition quiet (ps : list (string * string)) (text : string) : Prop :=
  forall p, In p ps -> re_search (fst p) text I_S = false.

(** The text of a script after the loop over the signatures. *)
Definition rewritten (text : string) : string :=
  fst (apply_patterns frame_busting_patterns text []).

(** The document part of the walk does not depend on the list. *)
Definition sanitized (n : Node) : Node := fst (sanitize_node n []).

(** The text that the loop stores in an element, if it stores one. *)
Definition new_string (name : string) (contents : list Node) : option string :=
  if String.eqb name "script" then
    match (match contents with [c] => node_string c | _ => None end) with
    | Some original_content =>
        if truthy original_content then
          if String.eqb (rewritten original_content) original_content
          then None else Some (rewritten original_content)
        else None
    | None => None
    end
  else None.

(** ** Definitions for the further properties *)

(** The least number of characters in a match of the pattern. *)
Fixpoint min_length (r : regex) : nat :=
  match r with
  | [] => 0
  | (_, Once) :: r' => S (min_length r')
  | _ :: r' => min_length r'
  end.

(** The least number of characters in a match of any pattern of the list;
    a pattern that does not compile counts for nothing. *)
Fixpoint least_match (ps : list string) : option nat :=
  match ps with
  | [] => None
  | p :: ps' =>
      let n := match compile p with Some r => min_length r | None => 0 end in
      match least_match ps' with
      | Some m => Some (Nat.min n m)
      | None => Some n
      end
  end.

(** The two texts are the same up to a place where the second has the
    character [first] and the first has another one. *)
Definition differs_at (first : ascii) (o t : list ascii) : Prop :=
  exists u x o' t', o = u ++ x :: o' /\ t = u ++ first :: t' /\ x <> first.

(** The entries that the loop adds for an element itself. *)
Definition own_entries (name : string) (contents : list Node) : list string :=
  if String.eqb name "script" then
    match (match contents with [c] => node_string c | _ => None end) with
    | Some original_content =>
        if truthy original_content then
          snd (apply_patterns frame_busting_patterns original_content [])
        else []
    | None => []
    end
  else [].

(** The document with every script element emptied. *)
Fixpoint blank_scripts (n : Node) : Node :=
  match n with
  | NavigableString _ => n
  | Tag name attrs contents =>
      Tag name attrs
        (if String.eqb name "script" then [] else map blank_scripts contents)
  end.

(** Can a match of the pattern start on [t], if [t] is continued by some
    text: the matcher with a text that is only known up to [t]. *)
Fixpoint match_open (f : flags) (r : regex) (t : list ascii) {struct r} : bool :=
  match r with
  | [] => true
  | (a, Once) :: r' =>
      match t with
      | [] => true
      | x :: t' => if accepts f a x then match_open f r' t' else false
      end
  | (a, Optional) :: r' =>
      match t with
      | [] => true
      | x :: t' =>
          if accepts f a x then
            if match_open f r' t' then true else match_open f r' t
          else match_open f r' t
      end
  | (a, ZeroOrMore) :: r' =>
      (fix star (t : list ascii) : bool :=
         match t with
         | [] => true
         | x :: t' =>
             if accepts f a x then
               if star t' then true else match_open f r' t
             else match_open f r' t
         end) t
  end.

(** The text and what is left of it after each of its characters. *)
Fixpoint tails (l : list ascii) : list (list ascii) :=
  l :: match l with
       | [] => []
       | _ :: l' => tails l'
       end.

(** No match of the pattern [d] can begin inside [marker], and no match
    can run into it. *)
Definition clear_of (f : flags) (d : regex) (marker : list ascii) : bool :=
  match marker with
  | first :: _ => negb (in_alphabet f d first)
  | [] => false
  end
  && forallb (fun t => match t with
                       | [] => true
                       | _ :: _ => negb (match_open f d t)
                       end) (tails marker).

(** The detection signature compiles to a pattern that is clear of the
    replacement text. *)
Definition clear_signature (pattern : string) : bool :=
  match compile pattern with
  | Some d => clear_of I d (chars removed)
  | None => false
  end.

(** The signature [;\s*;] compiled. *)
Definition doubled_semicolon : regex :=
  [(Literal ";", Once); (Whitespace, ZeroOrMore); (Literal ";", Once)].

(** The document part and the entries of the walk of the normalizer. *)
Definition cleaned (n : Node) : option Node := fst (clean_node n []).

Definition cleaned_nodes (l : list Node) : list Node := fst (clean_nodes l []).

Definition is_text (n : Node) : bool :=
  match n with
  | NavigableString _ => true
  | Tag _ _ _ => false
  end.

(** The shape of the documents that the HTML parser builds: a [meta]
    element has no children and a script holds text only. *)
Fixpoint parsed_shape (n : Node) : bool :=
  match n with
  | NavigableString _ => true
  | Tag name attrs contents =>
      if String.eqb name "meta" then
        match contents with [] => true | _ :: _ => false end
      else if String.eqb name "script" then forallb is_text contents
      else forallb parsed_shape contents
  end.

(** A page with an [x-frame-options] element and the script of scenario
    A. *)
Definition sample_page : Document :=
  [Tag "html" []
     [Tag "head" []
        [Tag "meta" [("http-equiv", "X-Frame-Options"); ("content", "DENY")] [];
         Tag "script" [] [NavigableString guard_script]];
      Tag "body" [] [NavigableString "hello"]]].

(** What the rewriter and the normalizer do to each other's work on a
    node. *)
Definition independent (n : Node) : Prop :=
  cleaned (sanitized n) = option_map sanitized (cleaned n) /\
  snd (clean_node (sanitized n) []) = snd (clean_node n []) /\
  match cleaned n with
  | Some n' => snd (sanitize_node n' []) = snd (sanitize_node n [])
  | None => snd (sanitize_node n []) = []
  end.

(** A parser, a serializer and a fetch for the instances: the parser
    gives the sample page for the text [sample] and the empty document
    otherwise, the serializer tells the empty document from the others, the
    fetch knows one address. *)
Definition sample_parser (text : string) : Document :=
  if String.eqb text "sample" then sample_page else [].

Definition sample_serializer (soup : Document) : string :=
  match soup with
  | [] => ""
  | _ :: _ => "<html>rewritten</html>"
  end.

Definition sample_fetch (u : string) : fetched :=
  if String.eqb u "https://example.com" then Response "sample"
  else Raised "not found".

(** * Properties *)

(** ** Checks of the model on the scenarios of the specification *)

Example compile_guard :
  compile "if\s*\(\s*self\s*!==?\s*top\s*\)[^}]*}" =
  Some [(Literal "i", Once); (Literal "f", Once); (Whitespace, ZeroOrMore);
        (Literal "(", Once); (Whitespace, ZeroOrMore);
        (Literal "s", Once); (Literal "e", Once); (Literal "l", Once);
        (Literal "f", Once); (Whitespace, ZeroOrMore);
        (Literal "!", Once); (Literal "=", Once); (Literal "=", Optional);
        (Whitespace, ZeroOrMore);
        (Literal "t", Once); (Literal "o", Once); (Literal "p", Once);
        (Whitespace, ZeroOrMore); (Literal ")", Once);
        (NotLiteral "}", ZeroOrMore); (Literal "}", Once)].
Proof. reflexivity. Qed.

Example sub_star_example :
  re_sub "x*" "-" "abxd" no_flags = "-a-b--d-".
Proof. reflexivity. Qed.

Example patterns_compile :
  forallb (fun p => match compile p with Some _ => true | None => false end)
    (patterns ++ map fst frame_busting_patterns
       ++ ["frame-ancestors[^;]*;?"; ";\s*;"]) = true.
Proof. reflexivity. Qed.

Example scenario_a_text :
  apply_patterns frame_busting_patterns guard_script [] =
  (removed, [removed_message "if\s*\(\s*window\s*!==?\s*window\.top\s*\)[^}]*}"]).
Proof. vm_compute. reflexivity. Qed.

Example scenario_c_step :
  clean_meta [("http-equiv", "Content-Security-Policy");
              ("content", "default-src 'self'; frame-ancestors 'none'")] =
  SetContent "default-src 'self'" "Modified CSP meta tag to remove frame-ancestors".
Proof. vm_compute. reflexivity. Qed.

Example scenario_f_detect :
  detect_frame_busting_patterns "<p>framekiller</p>" = ["framekiller"].
Proof. vm_compute. reflexivity. Qed.

(** ** The list of modifications is only ever appended to *)

Lemma apply_patterns_acc ps s mods :
  apply_patterns ps s mods =
  (fst (apply_patterns ps s []), mods ++ snd (apply_patterns ps s [])).
Proof.
  revert s mods.
  induction ps as [|[pattern replacement] ps IH]; intros s mods; simpl.
  - now rewrite app_nil_r.
  - destruct (re_search pattern s I_S).
    + rewrite IH. rewrite (IH _ [removed_message pattern]). simpl.
      now rewrite <- app_assoc.
    + apply IH.
Qed.

Lemma sanitize_script_acc n mods :
  sanitize_script n mods =
  (fst (sanitize_script n []), mods ++ snd (sanitize_script n [])).
Proof.
  unfold sanitize_script.
  destruct (node_string n) as [s|]; [|now rewrite app_nil_r].
  destruct (truthy s); [|now rewrite app_nil_r].
  rewrite apply_patterns_acc.
  destruct (apply_patterns frame_busting_patterns s []) as [t ms]. simpl.
  now destruct (String.eqb t s).
Qed.

Lemma sanitize_node_tag name attrs contents mods :
  sanitize_node (Tag name attrs contents) mods =
  (let '(new_string, mods1) :=
     if String.eqb name "script"
     then sanitize_script (Tag name attrs contents) mods
     else (None, mods) in
   let '(contents', mods2) := sanitize_nodes contents mods1 in
   match new_string with
   | Some modified_content =>
       (Tag name attrs [NavigableString modified_content], mods2)
   | None => (Tag name attrs contents', mods2)
   end).
Proof. reflexivity. Qed.

Lemma sanitize_acc :
  (forall n mods,
      sanitize_node n mods =
      (fst (sanitize_node n []), mods ++ snd (sanitize_node n []))) /\
  (forall l mods,
      sanitize_nodes l mods =
      (fst (sanitize_nodes l []), mods ++ snd (sanitize_nodes l []))).
Proof.
  assert (Hl : forall l, Forall (fun n => forall mods,
             sanitize_node n mods =
             (fst (sanitize_node n []), mods ++ snd (sanitize_node n []))) l ->
           forall mods, sanitize_nodes l mods =
             (fst (sanitize_nodes l []), mods ++ snd (sanitize_nodes l []))).
  { induction 1 as [|c l Hc _ IH]; intros mods; simpl.
    - now rewrite app_nil_r.
    - rewrite Hc. destruct (sanitize_node c []) as [c' m1]. simpl.
      rewrite IH. rewrite (IH m1).
      destruct (sanitize_nodes l []) as [l' m2]. simpl.
      now rewrite app_assoc. }
  assert (Hn : forall n mods, sanitize_node n mods =
             (fst (sanitize_node n []), mods ++ snd (sanitize_node n []))).
  { induction n as [s|name attrs contents IH] using Node_ind; intros mods.
    - simpl. now rewrite app_nil_r.
    - rewrite !sanitize_node_tag.
      destruct (String.eqb name "script").
      + rewrite sanitize_script_acc.
        destruct (sanitize_script (Tag name attrs contents) []) as [o m1]. simpl.
        rewrite (Hl _ IH). rewrite (Hl _ IH m1).
        destruct (sanitize_nodes contents []) as [l' m2]. simpl.
        destruct o; simpl; now rewrite app_assoc.
      + rewrite (Hl _ IH). rewrite (Hl _ IH []).
        destruct (sanitize_nodes contents []) as [l' m2]. simpl.
        reflexivity. }
  split; [exact Hn|].
  intros l. apply Hl. apply Forall_forall. intros n _. apply Hn.
Qed.

Lemma sanitize_nodes_app l1 l2 mods :
  sanitize_nodes (l1 ++ l2) mods =
  (fst (sanitize_nodes l1 mods) ++
     fst (sanitize_nodes l2 (snd (sanitize_nodes l1 mods))),
   snd (sanitize_nodes l2 (snd (sanitize_nodes l1 mods)))).
Proof.
  revert mods. induction l1 as [|c l1 IH]; intros mods; simpl.
  - now destruct (sanitize_nodes l2 mods).
  - destruct (sanitize_node c mods) as [c' m1].
    rewrite IH.
    destruct (sanitize_nodes l1 m1) as [l1' m2]. simpl.
    reflexivity.
Qed.

(** ** The assessor *)

Lemma assess_loop_true metas remaining :
  assess_loop metas remaining = true <->
  remaining = [] /\
  (forall m, In m metas -> ~ is_x_frame_options m) /\
  (forall m, In m metas -> ~ is_blocking_csp m).
Proof.
  unfold is_x_frame_options, is_blocking_csp.
  induction metas as [|m metas IH]; simpl.
  - destruct remaining; simpl; split; easy.
  - destruct (String.eqb_spec (lower (get (attrs_of m) "http-equiv" ""))
                "x-frame-options") as [Hx|Hx].
    + split; [discriminate|]. intros (_ & H & _). exfalso. now apply (H m); [left|].
    + destruct (String.eqb_spec (lower (get (attrs_of m) "http-equiv" ""))
                  "content-security-policy") as [Hc|Hc]; simpl.
      * destruct (contains "frame-ancestors" (lower (get (attrs_of m) "content" "")))
          eqn:Hf; simpl.
        -- destruct (contains "'none'" (lower (get (attrs_of m) "content" "")))
             eqn:Hq; simpl.
           ++ split; [discriminate|]. intros (_ & _ & H). exfalso.
              now apply (H m); [left|].
           ++ rewrite IH. split; intros (H1 & H2 & H3); repeat split; auto.
              ** intros m' [<-|Hin]; auto.
              ** intros m' [<-|Hin]; auto. rewrite Hq. now intros (_ & _ & ?).
        -- rewrite IH. split; intros (H1 & H2 & H3); repeat split; auto.
           ++ intros m' [<-|Hin]; auto.
           ++ intros m' [<-|Hin]; auto. rewrite Hf. now intros (_ & ? & _).
      * rewrite IH. split; intros (H1 & H2 & H3); repeat split; auto.
        -- intros m' [<-|Hin]; auto.
        -- intros m' [<-|Hin]; auto. now intros (? & _).
Qed.

(** C1. [assess(text)] is true exactly when [detect(text)] is empty, no
    [meta] element of the parsed text has an [http-equiv] that is
    [x-frame-options] up to case, and none has an [http-equiv] that is
    [content-security-policy] up to case with a [content] that contains, up
    to case, both [frame-ancestors] and ['none']; so it is false whenever
    [detect(text)] is not empty. *)
Theorem assess_iframe_compatibility_iff :
  forall (parse : string -> Document) (text : string),
    (assess_iframe_compatibility parse text = true <->
     detect_frame_busting_patterns text = [] /\
     (forall meta, In meta (find_all "meta" (parse text)) ->
                   ~ is_x_frame_options meta) /\
     (forall meta, In meta (find_all "meta" (parse text)) ->
                   ~ is_blocking_csp meta)) /\
    (detect_frame_busting_patterns text <> [] ->
     assess_iframe_compatibility parse text = false).
Proof.
  intros parse text. unfold assess_iframe_compatibility.
  split; [apply assess_loop_true|].
  intros Hne.
  destruct (assess_loop _ _) eqn:H; [|reflexivity].
  apply assess_loop_true in H. now destruct H.
Qed.

(** C10. On the empty text the detector finds nothing, and the assessor,
    given that the parser finds no [meta] element in the empty text,
    answers true. *)
Theorem empty_text_is_compatible :
  forall (parse : string -> Document),
    find_all "meta" (parse "") = [] ->
    detect_frame_busting_patterns "" = [] /\
    assess_iframe_compatibility parse "" = true.
Proof.
  intros parse H. split; [reflexivity|].
  unfold assess_iframe_compatibility. rewrite H. reflexivity.
Qed.

(** With a parser that gives the empty document for the empty text. *)
Lemma empty_text_is_compatible_witness :
  find_all "meta" (text_only_parser "") = [] /\
  detect_frame_busting_patterns "" = [] /\
  assess_iframe_compatibility text_only_parser "" = true.
Proof.
  split; [reflexivity|].
  apply (empty_text_is_compatible text_only_parser). reflexivity.
Defined.

(** ** Unfolding the matcher *)

Lemma match_here_once f a r s :
  match_here f ((a, Once) :: r) s =
  match s with
  | x :: s' => if accepts f a x then match_here f r s' else None
  | [] => None
  end.
Proof. reflexivity. Qed.

Lemma match_here_optional f a r s :
  match_here f ((a, Optional) :: r) s =
  match s with
  | x :: s' =>
      if accepts f a x then
        match match_here f r s' with
        | Some rest => Some rest
        | None => match_here f r s
        end
      else match_here f r s
  | [] => match_here f r s
  end.
Proof. reflexivity. Qed.

Lemma match_here_star f a r s :
  match_here f ((a, ZeroOrMore) :: r) s =
  match s with
  | x :: s' =>
      if accepts f a x then
        match match_here f ((a, ZeroOrMore) :: r) s' with
        | Some rest => Some rest
        | None => match_here f r s
        end
      else match_here f r s
  | [] => match_here f r s
  end.
Proof. destruct s; reflexivity. Qed.


Lemma search_matches f r s :
  search f r s = true <-> exists u v, s = u ++ v /\ matches f r v = true.
Proof.
  unfold matches. induction s as [|x s IH]; simpl.
  - destruct (match_here f r []) eqn:H.
    + split; [|reflexivity]. intros _. exists [], []. now rewrite H.
    + split; [discriminate|]. intros (u & v & Huv & Hm).
      symmetry in Huv. apply app_eq_nil in Huv. destruct Huv as [_ ->].
      now rewrite H in Hm.
  - destruct (match_here f r (x :: s)) eqn:H.
    + split; [|reflexivity]. intros _. exists [], (x :: s). now rewrite H.
    + rewrite IH. split.
      * intros (u & v & -> & Hm). now exists (x :: u), v.
      * intros (u & v & Huv & Hm). destruct u as [|y u].
        -- simpl in Huv. subst v. now rewrite H in Hm.
        -- injection Huv as _ ->. now exists u, v.
Qed.





(** ** Scenario A *)

(** C2. A script whose text is the guard
    [if (window !== window.top) { top.location = location; }] gets the text
    [// Frame busting code removed], and exactly one entry, that of the
    guard signature, is added to the list of modifications: wherever the
    script stands in the walk, and so in a document where it stands between
    any other nodes. *)
Theorem guard_script_rewritten :
  forall attrs,
    let script := Tag "script" attrs [NavigableString guard_script] in
    let script' := Tag "script" attrs [NavigableString removed] in
    let entry :=
      removed_message "if\s*\(\s*window\s*!==?\s*window\.top\s*\)[^}]*}" in
    (forall mods, sanitize_node script mods = (script', mods ++ [entry])) /\
    (forall before after,
        sanitize_javascript (before ++ script :: after) =
        (fst (sanitize_javascript before) ++ script' ::
           fst (sanitize_javascript after),
         snd (sanitize_javascript before) ++ [entry] ++
           snd (sanitize_javascript after))).
Proof.
  intros attrs script script' entry.
  assert (H : forall mods, sanitize_node script mods = (script', mods ++ [entry])).
  { intros mods. unfold script. rewrite sanitize_node_tag.
    change (String.eqb "script" "script") with true. cbv iota.
    rewrite sanitize_script_acc. unfold sanitize_script.
    change (node_string (Tag "script" attrs [NavigableString guard_script]))
      with (Some guard_script).
    change (truthy guard_script) with true. cbv iota.
    rewrite scenario_a_text. reflexivity. }
  split; [exact H|].
  intros before after. unfold sanitize_javascript.
  rewrite sanitize_nodes_app.
  change (sanitize_nodes (script :: after) (snd (sanitize_nodes before [])))
    with (let '(c', m) := sanitize_node script (snd (sanitize_nodes before [])) in
          let '(l'', m) := sanitize_nodes after m in (c' :: l'', m)).
  rewrite H.
  rewrite (proj2 sanitize_acc after).
  destruct (sanitize_nodes after []) as [after' m]. simpl.
  now rewrite <- app_assoc.
Qed.

(** ** The failure path of the orchestrator *)

(** C8, as the code has it.  When the fetch raises, the run pushes one
    result and returns: [error] is [str(e)], whatever it is, there is no
    [html_content], [iframe_compatible] is false, [original_blocked] is
    true and both lists are empty. *)
Theorem main_when_fetch_raises :
  forall parse serialize fetch u str_e,
    truthy u = true ->
    fetch u = Raised str_e ->
    main parse serialize fetch (Some u) =
    Pushed (Result u (Some str_e) None false true [] []).
Proof.
  intros parse serialize fetch u str_e Hu Hf.
  unfold main. now rewrite Hu, Hf.
Qed.

(** A run whose fetch times out with a message. *)
Lemma main_when_fetch_raises_witness :
  main text_only_parser (fun _ => "") (timed_out "timed out")
    (Some "https://example.com") =
  Pushed (Result "https://example.com" (Some "timed out") None false true [] []).
Proof.
  apply (main_when_fetch_raises text_only_parser (fun _ => "")
           (timed_out "timed out") "https://example.com" "timed out");
    reflexivity.
Defined.

(** C8 fails as stated: an exception whose [str(e)] is empty, as that of
    a timeout raised without a message, gives an empty [error]. *)
Lemma main_error_may_be_empty :
  exists r,
    main text_only_parser (fun _ => "") (timed_out "")
      (Some "https://example.com") = Pushed r /\
    error r = Some "".
Proof. eexists. split; reflexivity. Qed.

(** ** One entry for each signature that fires in a script *)





(** ** Detection and rewrite signatures *)






(** ** The normalizer of [meta] elements *)

Lemma clean_node_tag name attrs contents mods :
  clean_node (Tag name attrs contents) mods =
  match (if String.eqb name "meta" then clean_meta attrs else Leave) with
  | Decompose message => (None, mods ++ [message])
  | SetContent new_content message =>
      let '(contents', mods') := clean_nodes contents (mods ++ [message]) in
      (Some (Tag name (set attrs "content" new_content) contents'), mods')
  | Leave =>
      let '(contents', mods') := clean_nodes contents mods in
      (Some (Tag name attrs contents'), mods')
  end.
Proof. reflexivity. Qed.

Lemma chars_of_chars l : chars (of_chars l) = l.
Proof. apply list_ascii_of_string_of_list_ascii. Qed.




Lemma get_set_same attrs key value default :
  get (set attrs key value) key default = value.
Proof.
  induction attrs as [|[k v] attrs IH]; simpl.
  - now rewrite String.eqb_refl.
  - destruct (String.eqb k key) eqn:H; simpl; now rewrite H.
Qed.

Lemma get_set_other attrs key value other default :
  other <> key ->
  get (set attrs key value) other default = get attrs other default.
Proof.
  intros Hne. induction attrs as [|[k v] attrs IH]; simpl.
  - destruct (String.eqb_spec key other); [congruence|reflexivity].
  - destruct (String.eqb_spec k key) as [->|Hk]; simpl.
    + destruct (String.eqb_spec key other); [congruence|reflexivity].
    + now rewrite IH.
Qed.

Lemma set_keeps_keys attrs key value :
  get attrs key "" <> "" ->
  map fst (set attrs key value) = map fst attrs.
Proof.
  induction attrs as [|[k v] attrs IH]; simpl; intros H.
  - now contradiction H.
  - destruct (String.eqb k key); simpl; [reflexivity|].
    now rewrite IH.
Qed.

Lemma directive_tail s :
  match_here I [(NotLiteral ";", ZeroOrMore); (Literal ";", Optional)] s =
  Some (after_semicolon s).
Proof.
  induction s as [|x s IH]; [reflexivity|].
  rewrite match_here_star, IH. simpl after_semicolon.
  unfold accepts, same_char. simpl IGNORECASE.
  destruct (Ascii.eqb_spec x ";") as [->|Hx].
  - reflexivity.
  - assert (Ascii.eqb (lower_char x) (lower_char ";") = false) as ->; [|reflexivity].
    apply Ascii.eqb_neq. intros H. apply Hx.
    revert H. clear. destruct x as [[] [] [] [] [] [] [] []]; vm_compute; congruence.
Qed.

Lemma literals_then f word tail :
  forall s,
    match_here f (map (fun c => (Literal c, Once)) word ++ tail) s =
    if forallb (fun p => same_char f (fst p) (snd p))
         (combine word (firstn (List.length word) s))
       && Nat.leb (List.length word) (List.length s)
    then match_here f tail (skipn (List.length word) s) else None.
Proof.
  induction word as [|c word IH]; intros s; simpl.
  - reflexivity.
  - destruct s as [|x s]; [reflexivity|]. simpl.
    destruct (same_char f c x); simpl; [apply IH|reflexivity].
Qed.



(** C4 at the input where it fails: removing the directive that sits
    inside the word [frame-...ancestors] joins its two halves, and the
    element survives with a content that contains [frame-ancestors]. *)
Theorem frame_ancestors_survives :
  let meta content :=
    Tag "meta" [("http-equiv", "Content-Security-Policy"); ("content", content)] [] in
  clean_meta_tags [meta "frame-frame-ancestors;ancestors 'none'"] =
  ([meta "frame-ancestors 'none'"],
   ["Modified CSP meta tag to remove frame-ancestors"]) /\
  contains "frame-ancestors" (lower "frame-ancestors 'none'") = true.
Proof. vm_compute. split; reflexivity. Qed.

(** ** What the normalizer leaves alone *)

Lemma erase_node_tag name attrs contents :
  erase_node (Tag name attrs contents) =
  if String.eqb name "meta" && is_target attrs then None
  else Some (Tag name attrs (erase_nodes contents)).
Proof. reflexivity. Qed.

Lemma clean_meta_cases attrs :
  match clean_meta attrs with
  | Decompose _ => is_target attrs = true
  | SetContent _ _ =>
      is_target attrs = true /\
      contains "frame-ancestors" (lower (get attrs "content" "")) = true
  | Leave =>
      String.eqb (lower (get attrs "http-equiv" "")) "x-frame-options" = false
  end.
Proof.
  unfold clean_meta, is_target.
  destruct (String.eqb (lower (get attrs "http-equiv" "")) "x-frame-options");
    [reflexivity|].
  destruct (String.eqb (lower (get attrs "http-equiv" "")) "content-security-policy");
    [|reflexivity].
  destruct (contains "frame-ancestors" (lower (get attrs "content" "")));
    [|reflexivity].
  cbv zeta. destruct (truthy _); simpl; auto.
Qed.

Lemma is_target_set_content attrs value :
  is_target (set attrs "content" value) = is_target attrs.
Proof.
  unfold is_target. now rewrite get_set_other by discriminate.
Qed.

Lemma erase_clean :
  forall n mods, erase_opt (fst (clean_node n mods)) = erase_node n.
Proof.
  assert (Hl : forall l,
             Forall (fun n => forall mods,
                         erase_opt (fst (clean_node n mods)) = erase_node n) l ->
             forall mods, erase_nodes (fst (clean_nodes l mods)) = erase_nodes l).
  { induction 1 as [|c l Hc _ IH]; intros mods; simpl; [reflexivity|].
    specialize (Hc mods).
    destruct (clean_node c mods) as [c' m1]. simpl in Hc.
    specialize (IH m1).
    destruct (clean_nodes l m1) as [l' m2]. simpl in *.
    rewrite <- Hc. destruct c' as [c''|]; simpl.
    - destruct (erase_node c''); now rewrite IH.
    - exact IH. }
  induction n as [s|name attrs contents IH] using Node_ind; intros mods.
  - reflexivity.
  - rewrite clean_node_tag, erase_node_tag.
    destruct (String.eqb name "meta") eqn:Hname; cbn [andb].
    + pose proof (clean_meta_cases attrs) as Hc.
      destruct (clean_meta attrs) as [message|new_content message|].
      * cbn [fst erase_opt]. now rewrite Hc.
      * pose proof (Hl _ IH (mods ++ [message])) as Hcs.
        destruct (clean_nodes contents (mods ++ [message])) as [cs' m'].
        cbn [fst erase_opt].
        rewrite erase_node_tag, Hname, is_target_set_content.
        destruct Hc as [-> _]. reflexivity.
      * pose proof (Hl _ IH mods) as Hcs.
        destruct (clean_nodes contents mods) as [cs' m'].
        cbn [fst erase_opt] in *.
        rewrite erase_node_tag, Hname, Hcs. reflexivity.
    + pose proof (Hl _ IH mods) as Hcs.
      destruct (clean_nodes contents mods) as [cs' m'].
      cbn [fst erase_opt] in *.
      rewrite erase_node_tag, Hname, Hcs. reflexivity.
Qed.

Lemma erase_clean_nodes l :
  forall mods, erase_nodes (fst (clean_nodes l mods)) = erase_nodes l.
Proof.
  induction l as [|c l IH]; intros mods; simpl; [reflexivity|].
  pose proof (erase_clean c mods) as Hc.
  destruct (clean_node c mods) as [c' m1]. simpl in Hc.
  specialize (IH m1).
  destruct (clean_nodes l m1) as [l' m2]. simpl in *.
  rewrite <- Hc. destruct c' as [c''|]; simpl.
  - destruct (erase_node c''); now rewrite IH.
  - exact IH.
Qed.

(** C9. The normalizer changes nothing but [meta] elements whose
    [http-equiv] is [x-frame-options] or [content-security-policy] up to
    case: the document without these elements is the same before and
    after.  An element that is not a [meta], a [meta] with another
    [http-equiv] or none, and a [content-security-policy] [meta] whose
    content does not contain [frame-ancestors] keep their name and their
    attributes and add no entry.  A [content-security-policy] [meta] that
    is modified keeps its name, its attribute names in their order and the
    value of every attribute but [content]. *)
Theorem clean_meta_tags_frame :
  (forall soup, erase_nodes (fst (clean_meta_tags soup)) = erase_nodes soup) /\
  (forall name attrs contents mods,
      name <> "meta" \/
      (lower (get attrs "http-equiv" "") <> "x-frame-options" /\
       lower (get attrs "http-equiv" "") <> "content-security-policy") \/
      (lower (get attrs "http-equiv" "") = "content-security-policy" /\
       contains "frame-ancestors" (lower (get attrs "content" "")) = false) ->
      clean_node (Tag name attrs contents) mods =
      (Some (Tag name attrs (fst (clean_nodes contents mods))),
       snd (clean_nodes contents mods))) /\
  (forall attrs contents mods new_content message,
      clean_meta attrs = SetContent new_content message ->
      fst (clean_node (Tag "meta" attrs contents) mods) =
      Some (Tag "meta" (set attrs "content" new_content)
              (fst (clean_nodes contents (mods ++ [message])))) /\
      map fst (set attrs "content" new_content) = map fst attrs /\
      forall key default,
        key <> "content" ->
        get (set attrs "content" new_content) key default = get attrs key default).
Proof.
  split; [|split].
  - intros soup. apply erase_clean_nodes.
  - intros name attrs contents mods H. rewrite clean_node_tag.
    assert (Hleave :
              (if String.eqb name "meta" then clean_meta attrs else Leave) = Leave).
    { destruct (String.eqb_spec name "meta") as [Hn|Hn]; [|reflexivity].
      destruct H as [H|[[Hx Hc]|[Hc Hf]]]; [contradiction| |]; unfold clean_meta.
      - apply String.eqb_neq in Hx, Hc. now rewrite Hx, Hc.
      - rewrite Hc, Hf. reflexivity. }
    rewrite Hleave. now destruct (clean_nodes contents mods).
  - intros attrs contents mods new_content message H.
    split; [|split].
    + rewrite clean_node_tag. change (String.eqb "meta" "meta") with true. cbv iota.
      rewrite H. now destruct (clean_nodes contents (mods ++ [message])).
    + apply set_keeps_keys.
      pose proof (clean_meta_cases attrs) as Hc. rewrite H in Hc.
      destruct Hc as [_ Hc]. intros Hempty. rewrite Hempty in Hc. discriminate.
    + intros key default Hkey. now apply get_set_other.
Qed.

(** ** The words of a pattern *)

Section Words.

Variable f : flags.

Lemma match_here_sound r :
  forall s rest, match_here f r s = Some rest ->
                 exists w, s = w ++ rest /\ Word f r w.
Proof.
  induction r as [|[a q] r IH]; intros s rest.
  - simpl. intros [= ->]. exists []. split; [reflexivity|constructor].
  - destruct q.
    + rewrite match_here_once. destruct s as [|x s]; [discriminate|].
      destruct (accepts f a x) eqn:Ha; [|discriminate].
      intros H. destruct (IH _ _ H) as (w & -> & Hw).
      exists (x :: w). split; [reflexivity|now constructor].
    + rewrite match_here_optional.
      assert (Hskip : match_here f r s = Some rest ->
                      exists w, s = w ++ rest /\ Word f ((a, Optional) :: r) w).
      { intros H. destruct (IH _ _ H) as (w & -> & Hw).
        exists w. split; [reflexivity|now constructor]. }
      destruct s as [|x s']; [exact Hskip|].
      destruct (accepts f a x) eqn:Ha; [|exact Hskip].
      destruct (match_here f r s') as [rest'|] eqn:H'; [|exact Hskip].
      intros [= ->]. destruct (IH _ _ H') as (w & -> & Hw).
      exists (x :: w). split; [reflexivity|now constructor].
    + revert rest. induction s as [|x s' IHs]; intros rest; rewrite match_here_star.
      * intros H. destruct (IH _ _ H) as (w & Hs & Hw).
        exists w. split; [assumption|now constructor].
      * assert (Hskip : match_here f r (x :: s') = Some rest ->
                        exists w, x :: s' = w ++ rest /\
                                  Word f ((a, ZeroOrMore) :: r) w).
        { intros H. destruct (IH _ _ H) as (w & Hs & Hw).
          exists w. split; [assumption|now constructor]. }
        destruct (accepts f a x) eqn:Ha; [|exact Hskip].
        destruct (match_here f ((a, ZeroOrMore) :: r) s') as [rest'|] eqn:H';
          [|exact Hskip].
        intros [= ->]. destruct (IHs _ eq_refl) as (w & -> & Hw).
        exists (x :: w). split; [reflexivity|now constructor].
Qed.

Lemma match_here_complete r w :
  Word f r w -> forall rest, matches f r (w ++ rest) = true.
Proof.
  unfold matches.
  induction 1 as [|a r x w Ha _ IH|a r w _ IH|a r x w Ha _ IH|a r w _ IH
                  |a r x w Ha _ IH]; intros rest.
  - reflexivity.
  - rewrite match_here_once, <- app_comm_cons, Ha. apply IH.
  - rewrite match_here_optional. specialize (IH rest).
    destruct (w ++ rest) as [|x s']; [exact IH|].
    destruct (accepts f a x); [|exact IH].
    destruct (match_here f r s'); [reflexivity|exact IH].
  - rewrite match_here_optional, <- app_comm_cons, Ha. specialize (IH rest).
    destruct (match_here f r (w ++ rest)); [reflexivity|discriminate].
  - rewrite match_here_star. specialize (IH rest).
    destruct (w ++ rest) as [|x s']; [exact IH|].
    destruct (accepts f a x); [|exact IH].
    destruct (match_here f ((a, ZeroOrMore) :: r) s'); [reflexivity|exact IH].
  - rewrite match_here_star, <- app_comm_cons, Ha. specialize (IH rest).
    destruct (match_here f ((a, ZeroOrMore) :: r) (w ++ rest));
      [reflexivity|discriminate].
Qed.

Lemma matches_Word r s :
  matches f r s = true <-> exists w rest, s = w ++ rest /\ Word f r w.
Proof.
  split.
  - unfold matches. destruct (match_here f r s) as [rest|] eqn:H; [|discriminate].
    intros _. destruct (match_here_sound _ _ _ H) as (w & Hs & Hw).
    now exists w, rest.
  - intros (w & rest & -> & Hw). now apply match_here_complete.
Qed.

Lemma Word_app r1 w1 :
  Word f r1 w1 -> forall r2 w2, Word f r2 w2 -> Word f (r1 ++ r2) (w1 ++ w2).
Proof.
  induction 1 as [|a r x w Ha _ IH|a r w _ IH|a r x w Ha _ IH|a r w _ IH
                  |a r x w Ha _ IH]; intros r2 w2 H2; simpl.
  - assumption.
  - apply Word_once; auto.
  - apply Word_optional_skip; auto.
  - apply Word_optional_take; auto.
  - apply Word_star_skip; auto.
  - apply Word_star_take; auto. now apply (IH r2 w2).
Qed.

Lemma Word_split r w :
  Word f r w ->
  forall r1 r2, r = r1 ++ r2 ->
                exists w1 w2, w = w1 ++ w2 /\ Word f r1 w1 /\ Word f r2 w2.
Proof.
  induction 1 as [|a r x w Ha Hw IH|a r w Hw IH|a r x w Ha Hw IH|a r w Hw IH
                  |a r x w Ha Hw IH]; intros r1 r2 Hr.
  - symmetry in Hr. apply app_eq_nil in Hr. destruct Hr as [-> ->].
    exists [], []. repeat split; constructor.
  - destruct r1 as [|i r1]; simpl in Hr.
    + subst r2. exists [], (x :: w). repeat split; now constructor.
    + injection Hr as <- ->. destruct (IH _ _ eq_refl) as (w1 & w2 & -> & H1 & H2).
      exists (x :: w1), w2. repeat split; [now constructor|assumption].
  - destruct r1 as [|i r1]; simpl in Hr.
    + subst r2. exists [], w. repeat split; now constructor.
    + injection Hr as <- ->. destruct (IH _ _ eq_refl) as (w1 & w2 & -> & H1 & H2).
      exists w1, w2. repeat split; [now constructor|assumption].
  - destruct r1 as [|i r1]; simpl in Hr.
    + subst r2. exists [], (x :: w). repeat split; [constructor|now constructor].
    + injection Hr as <- ->. destruct (IH _ _ eq_refl) as (w1 & w2 & -> & H1 & H2).
      exists (x :: w1), w2. repeat split; [now constructor|assumption].
  - destruct r1 as [|i r1]; simpl in Hr.
    + subst r2. exists [], w. repeat split; now constructor.
    + injection Hr as <- ->. destruct (IH _ _ eq_refl) as (w1 & w2 & -> & H1 & H2).
      exists w1, w2. repeat split; [now constructor|assumption].
  - destruct r1 as [|i r1]; simpl in Hr.
    + subst r2. exists [], (x :: w). repeat split; [constructor|now constructor].
    + injection Hr as <- ->.
      destruct (IH ((a, ZeroOrMore) :: r1) r2 eq_refl) as (w1 & w2 & -> & H1 & H2).
      exists (x :: w1), w2. repeat split; [now constructor|assumption].
Qed.

Lemma Word_alphabet r w :
  Word f r w -> forallb (in_alphabet f r) w = true.
Proof.
  assert (Hmono : forall i r x,
             in_alphabet f r x = true -> in_alphabet f (i :: r) x = true).
  { intros i r0 x H. unfold in_alphabet in *. simpl. rewrite H. apply orb_true_r. }
  assert (Hall : forall i r w, forallb (in_alphabet f r) w = true ->
                               forallb (in_alphabet f (i :: r)) w = true).
  { intros i r0 w0 H. rewrite forallb_forall in *. auto. }
  induction 1 as [|a r x w Ha _ IH|a r w _ IH|a r x w Ha _ IH|a r w _ IH
                  |a r x w Ha _ IH]; simpl; auto.
  - rewrite (Hall _ _ _ IH). unfold in_alphabet. simpl. now rewrite Ha.
  - rewrite (Hall _ _ _ IH). unfold in_alphabet. simpl. now rewrite Ha.
  - rewrite IH. unfold in_alphabet. simpl. now rewrite Ha.
Qed.

End Words.

(** ** Rewrite signatures and the replacement text *)

Lemma all_ascii_complete x : In x all_ascii.
Proof.
  unfold all_ascii. rewrite <- (ascii_nat_embedding x).
  apply in_map, in_seq. pose proof (nat_ascii_bounded x). lia.
Qed.

Lemma for_all_ascii (p : ascii -> bool) :
  forallb p all_ascii = true -> forall x, p x = true.
Proof.
  intros H x. rewrite forallb_forall in H. apply H, all_ascii_complete.
Qed.

Lemma sub_from_cons f r repl x s :
  sub_from f r repl 0 (x :: s) =
  match match_here f r (x :: s) with
  | Some rest =>
      match List.length (x :: s) - List.length rest with
      | 0 => repl ++ x :: sub_from f r repl 0 s
      | S k => repl ++ sub_from f r repl k s
      end
  | None => x :: sub_from f r repl 0 s
  end.
Proof. reflexivity. Qed.

Lemma search_cons f r x s :
  search f r (x :: s) = matches f r (x :: s) || search f r s.
Proof. unfold matches. simpl. now destruct (match_here f r (x :: s)). Qed.

Lemma search_nil f r : search f r [] = matches f r [].
Proof. unfold matches. simpl. now destruct (match_here f r []). Qed.

Lemma nullable_Word f post : nullable post = true -> Word f post [].
Proof.
  induction post as [|[a q] post IH]; simpl; intros H; [constructor|].
  apply andb_prop in H. destruct H as [Hq H].
  destruct q; [discriminate| |]; constructor; auto.
Qed.

Lemma Word_guarded_stop f c post w :
  Word f (guarded c post) w -> existsb (same_char f c) w = true.
Proof.
  unfold guarded. intros H.
  remember ((NotLiteral c, ZeroOrMore) :: (Literal c, Once) :: post) as r eqn:Hr.
  induction H as [|a r' x w Ha Hw IH|a r' w Hw IH|a r' x w Ha Hw IH|a r' w Hw IH
                  |a r' x w Ha Hw IH]; try discriminate.
  - injection Hr as -> ->. inversion Hw as [|? ? x w' Hx| | | |]; subst.
    simpl in *. now rewrite Hx.
  - simpl. rewrite (IH Hr). apply orb_true_r.
Qed.

Lemma guarded_Word f c post u x :
  nullable post = true ->
  forallb (fun y => negb (same_char f c y)) u = true ->
  same_char f c x = true ->
  Word f (guarded c post) (u ++ [x]).
Proof.
  intros Hpost Hu Hx. unfold guarded.
  induction u as [|y u IH]; simpl in *.
  - apply Word_star_skip. apply Word_once; [exact Hx|now apply nullable_Word].
  - apply andb_prop in Hu. destruct Hu as [Hy Hu].
    apply Word_star_take; [exact Hy|auto].
Qed.

Lemma first_such (p : ascii -> bool) t :
  existsb p t = true ->
  exists u x v, t = u ++ x :: v /\ forallb (fun y => negb (p y)) u = true /\ p x = true.
Proof.
  induction t as [|y t IH]; simpl; [discriminate|].
  destruct (p y) eqn:Hy.
  - intros _. now exists [], y, t.
  - simpl. intros H. destruct (IH H) as (u & x & v & -> & Hu & Hx).
    exists (y :: u), x, v. simpl. now rewrite Hy.
Qed.

Lemma no_pair_at f a1 a2 m :
  no_pair f a1 a2 m = true ->
  forall u x t, m = u ++ x :: t ->
                accepts f a1 x &&
                match t with [] => true | y :: _ => accepts f a2 y end = false.
Proof.
  induction m as [|z m IH]; intros H u x t Hm.
  - now destruct u.
  - simpl in H. apply andb_prop in H. destruct H as [Hz H].
    destruct u as [|z' u]; simpl in Hm; injection Hm as -> ->.
    + now apply negb_true_iff in Hz.
    + now apply IH with u.
Qed.

Section Shape.

Variables (f : flags) (head : regex) (c : ascii) (post : regex).
Variable marker : list ascii.

Hypothesis is_safe : safe f head c post marker = true.

Lemma safe_post : nullable post = true.
Proof.
  unfold safe in is_safe. rewrite !andb_true_iff in is_safe. tauto.
Qed.

Lemma safe_head_stop x :
  in_alphabet f head x = true -> same_char f c x = false.
Proof.
  unfold safe in is_safe. rewrite !andb_true_iff in is_safe.
  destruct is_safe as [[[[_ H] _] _] _].
  pose proof (for_all_ascii _ H x) as Hx. simpl in Hx.
  intros Hin. rewrite Hin in Hx. now destruct (same_char f c x).
Qed.

Lemma safe_marker_stop : existsb (same_char f c) marker = false.
Proof.
  unfold safe in is_safe. rewrite !andb_true_iff in is_safe.
  destruct is_safe as [[[_ H] _] _]. now apply negb_true_iff in H.
Qed.

Lemma safe_marker_first :
  exists first marker', marker = first :: marker' /\ in_alphabet f head first = false.
Proof.
  unfold safe in is_safe. rewrite !andb_true_iff in is_safe.
  destruct is_safe as [_ H]. destruct marker as [|first marker']; [discriminate|].
  exists first, marker'. split; [reflexivity|now apply negb_true_iff in H].
Qed.

Lemma safe_head_start w :
  Word f head w ->
  exists a1 a2 x y w',
    w = x :: y :: w' /\ accepts f a1 x = true /\ accepts f a2 y = true /\
    no_pair f a1 a2 marker = true.
Proof.
  unfold safe in is_safe. rewrite !andb_true_iff in is_safe.
  destruct is_safe as [[_ H] _].
  destruct head as [|[a1 []] [|[a2 []] head']]; try discriminate.
  intros Hw. inversion Hw as [|? ? x w1 Hx Hw1| | | |]; subst.
  inversion Hw1 as [|? ? y w2 Hy Hw2| | | |]; subst.
  now exists a1, a2, x, y, w2.
Qed.

Lemma head_no_stop w :
  Word f head w -> existsb (same_char f c) w = false.
Proof.
  intros Hw. apply Word_alphabet in Hw.
  induction w as [|x w IH]; [reflexivity|].
  simpl in *. apply andb_prop in Hw. destruct Hw as [Hx Hw].
  now rewrite (safe_head_stop _ Hx), IH.
Qed.

(** A match of the signature: a word of the head, and the character [c]
    somewhere behind it. *)
Lemma matches_shape s :
  matches f (signature head c post) s = true <->
  exists w t, s = w ++ t /\ Word f head w /\ existsb (same_char f c) t = true.
Proof.
  rewrite matches_Word. split.
  - intros (w & rest & -> & Hw).
    destruct (Word_split _ _ _ Hw head (guarded c post) eq_refl)
      as (w1 & w2 & -> & H1 & H2).
    exists w1, (w2 ++ rest). rewrite app_assoc. repeat split; [assumption|].
    rewrite existsb_app, (Word_guarded_stop _ _ _ _ H2). reflexivity.
  - intros (w & t & -> & Hw & Ht).
    destruct (first_such _ _ Ht) as (u & x & v & -> & Hu & Hx).
    exists (w ++ u ++ [x]), v. split.
    + now rewrite <- !app_assoc.
    + apply Word_app; [assumption|]. apply guarded_Word; auto using safe_post.
Qed.

Lemma matches_not_empty s rest :
  match_here f (signature head c post) s = Some rest ->
  List.length rest < List.length s.
Proof.
  intros H. destruct (match_here_sound _ _ _ _ H) as (w & -> & Hw).
  destruct (Word_split _ _ _ Hw head (guarded c post) eq_refl)
    as (w1 & w2 & -> & H1 & H2).
  apply Word_guarded_stop in H2. rewrite !length_app.
  destruct w2; [discriminate|]. simpl. lia.
Qed.

(** No match starts inside the replacement text. *)
Lemma no_match_in_marker u x t v :
  marker = u ++ x :: t -> matches f (signature head c post) ((x :: t) ++ v) = false.
Proof.
  intros Hm.
  destruct (matches f (signature head c post) ((x :: t) ++ v)) eqn:H;
    [|reflexivity].
  apply matches_shape in H. destruct H as (w & t' & Heq & Hw & _).
  destruct (safe_head_start _ Hw) as (a1 & a2 & x' & y & w' & -> & Hx & Hy & Hnp).
  pose proof (no_pair_at _ _ _ _ Hnp _ _ _ Hm) as Hat.
  simpl in Heq. injection Heq as -> Heq. rewrite Hx in Hat.
  destruct t as [|y' t]; [discriminate|].
  simpl in Heq. injection Heq as -> _. now rewrite Hy in Hat.
Qed.

Lemma search_behind_marker v :
  search f (signature head c post) (marker ++ v) = true ->
  search f (signature head c post) v = true.
Proof.
  intros H. apply search_matches in H. destruct H as (u0 & v0 & Heq & Hm).
  apply app_eq_app in Heq. destruct Heq as (l & [[Hmarker Hv0]|[Hu0 Hv]]).
  - destruct l as [|x t].
    + simpl in Hv0. subst v0. apply search_matches. now exists [], v.
    + subst v0. now rewrite (no_match_in_marker u0 x t v Hmarker) in Hm.
  - apply search_matches. now exists l, v0.
Qed.

Section Substitution.

(** The signature whose matches are replaced; it may be any. *)
Variable rj : regex.

Lemma sub_keeps_prefix w :
  forallb (in_alphabet f head) w = true ->
  forall s t, sub_from f rj marker 0 s = w ++ t -> exists t', s = w ++ t'.
Proof.
  destruct safe_marker_first as (first & marker' & Hmarker & Hfirst).
  induction w as [|y w IH]; intros Hw s t H.
  - now exists s.
  - simpl in Hw. apply andb_prop in Hw. destruct Hw as [Hy Hw].
    assert (Hstart : forall l, marker ++ l <> (y :: w) ++ t).
    { intros l. rewrite Hmarker. simpl. intros [= -> _]. congruence. }
    destruct s as [|x s].
    + simpl in H. destruct (match_here f rj []).
      * exfalso. apply (Hstart []). now rewrite app_nil_r.
      * discriminate.
    + rewrite sub_from_cons in H.
      destruct (match_here f rj (x :: s)) as [rest|].
      * exfalso. destruct (List.length (x :: s) - List.length rest);
          now apply Hstart in H.
      * simpl in H. injection H as -> H.
        destruct (IH Hw _ _ H) as [t' ->]. now exists t'.
Qed.

Lemma sub_has_stop s :
  forall k, existsb (same_char f c) (sub_from f rj marker k s) = true ->
            existsb (same_char f c) s = true.
Proof.
  pose proof safe_marker_stop as Hm.
  induction s as [|x s IH]; intros k.
  - simpl. destruct k; [|discriminate].
    destruct (match_here f rj []); [congruence|discriminate].
  - destruct k as [|k].
    + rewrite sub_from_cons. simpl existsb at 2.
      destruct (match_here f rj (x :: s)) as [rest|].
      * destruct (List.length (x :: s) - List.length rest);
          rewrite existsb_app, Hm; simpl; intros H.
        -- apply orb_prop in H. destruct H as [->|H]; [reflexivity|].
           rewrite (IH _ H). apply orb_true_r.
        -- rewrite (IH _ H). apply orb_true_r.
      * simpl. intros H. apply orb_prop in H. destruct H as [->|H]; [reflexivity|].
        rewrite (IH _ H). apply orb_true_r.
    + simpl. intros H. rewrite (IH _ H). apply orb_true_r.
Qed.

(** A match that starts in front of the rewritten text was there before
    the rewriting. *)
Lemma matches_before_sub x s :
  matches f (signature head c post) (x :: sub_from f rj marker 0 s) = true ->
  matches f (signature head c post) (x :: s) = true.
Proof.
  intros H. apply matches_shape in H. destruct H as (w & t & Heq & Hw & Ht).
  destruct (safe_head_start _ Hw) as (_ & _ & x' & y & w' & -> & _).
  simpl in Heq. injection Heq as <- Heq.
  pose proof (Word_alphabet _ _ _ Hw) as Halpha. simpl in Halpha.
  apply andb_prop in Halpha. destruct Halpha as [_ Halpha].
  destruct (sub_keeps_prefix (y :: w') Halpha _ _ Heq) as [t' ->].
  apply matches_shape. exists (x :: y :: w'), t'. repeat split; [assumption|].
  assert (Hs : existsb (same_char f c) ((y :: w') ++ t') = true).
  { apply sub_has_stop with 0. rewrite Heq. simpl.
    rewrite existsb_app, Ht. now rewrite !orb_true_r. }
  rewrite existsb_app in Hs. apply orb_prop in Hs. destruct Hs as [Hs|Hs]; [|exact Hs].
  pose proof (head_no_stop _ Hw) as Hno. simpl in Hno, Hs.
  apply orb_false_elim in Hno. destruct Hno as [_ Hno]. congruence.
Qed.

(** Replacing matches of any signature by the replacement text brings no
    match of this signature. *)
Lemma sub_brings_no_match s :
  forall k,
    search f (signature head c post) (sub_from f rj marker k s) = true ->
    search f (signature head c post) s = true.
Proof.
  induction s as [|x s IH]; intros k.
  - simpl sub_from. destruct k; [|now rewrite search_nil].
    destruct (match_here f rj []); [|now rewrite search_nil].
    intros H. rewrite <- (app_nil_r marker) in H. now apply search_behind_marker in H.
  - assert (Hx : search f (signature head c post)
                   (x :: sub_from f rj marker 0 s) = true ->
                 search f (signature head c post) (x :: s) = true).
    { rewrite !search_cons. intros H.
      apply orb_prop in H. destruct H as [H|H].
      - now rewrite (matches_before_sub _ _ H).
      - rewrite (IH _ H). apply orb_true_r. }
    destruct k as [|k].
    + rewrite sub_from_cons.
      destruct (match_here f rj (x :: s)) as [rest|]; [|exact Hx].
      destruct (List.length (x :: s) - List.length rest); intros H;
        apply search_behind_marker in H.
      * now apply Hx.
      * rewrite search_cons, (IH _ H). apply orb_true_r.
    + simpl sub_from. intros H. rewrite search_cons, (IH _ H). apply orb_true_r.
Qed.

End Substitution.

(** After its matches are replaced, the signature matches nowhere. *)
Lemma sub_leaves_no_match s :
  forall k,
    search f (signature head c post)
      (sub_from f (signature head c post) marker k s) = false.
Proof.
  assert (Hnil : search f (signature head c post) [] = false).
  { rewrite search_nil. unfold matches.
    destruct (match_here f (signature head c post) []) as [rest|] eqn:H; [|reflexivity].
    apply matches_not_empty in H. simpl in H. lia. }
  induction s as [|x s IH]; intros k.
  - simpl sub_from. destruct k; [|exact Hnil].
    destruct (match_here f (signature head c post) []) as [rest|] eqn:H; [|exact Hnil].
    apply matches_not_empty in H. simpl in H. lia.
  - destruct k as [|k]; [|apply IH].
    rewrite sub_from_cons.
    destruct (match_here f (signature head c post) (x :: s)) as [rest|] eqn:H.
    + pose proof (matches_not_empty _ _ H) as Hlen.
      destruct (List.length (x :: s) - List.length rest) as [|k] eqn:Hk; [lia|].
      destruct (search f (signature head c post)
                  (marker ++ sub_from f (signature head c post) marker k s))
        eqn:Hs;
        [|reflexivity].
      apply search_behind_marker in Hs. now rewrite IH in Hs.
    + rewrite search_cons, IH, orb_false_r.
      destruct (matches f (signature head c post)
                  (x :: sub_from f (signature head c post) marker 0 s))
        eqn:Hm; [|reflexivity].
      apply matches_before_sub in Hm. unfold matches in Hm. now rewrite H in Hm.
Qed.

End Shape.

(** ** The rewritten text matches no rewrite signature *)

Lemma shape_of_eq r :
  forall head c post,
    shape_of r = Some (head, c, post) -> r = signature head c post.
Proof.
  induction r as [|i r IH]; intros head c post H; [discriminate|].
  assert (Hrec : match shape_of r with
                 | Some (head, c, post) => Some (i :: head, c, post)
                 | None => None
                 end = Some (head, c, post) -> i :: r = signature head c post).
  { destruct (shape_of r) as [[[head' c'] post']|]; [|discriminate].
    intros [= <- <- <-]. unfold signature. simpl. f_equal. now apply IH. }
  simpl in H.
  destruct i as [[c1|c1| |] []]; try (now apply Hrec).
  destruct r as [|[[d|d| |] []] post']; try (now apply Hrec).
  destruct (Ascii.eqb_spec c1 d) as [->|]; [|discriminate].
  injection H as <- <- <-. reflexivity.
Qed.

Lemma catalogue_is_safe :
  forallb (fun p => safe_signature (fst p) && String.eqb (snd p) removed)
    frame_busting_patterns = true.
Proof. vm_compute. reflexivity. Qed.

Lemma catalogue_safe p :
  In p frame_busting_patterns ->
  safe_signature (fst p) = true /\ snd p = removed.
Proof.
  intros H. pose proof catalogue_is_safe as Hall.
  rewrite forallb_forall in Hall. specialize (Hall p H).
  apply andb_prop in Hall. destruct Hall as [Hs He].
  split; [assumption|now apply String.eqb_eq].
Qed.

Lemma re_sub_brings_no_match q p text :
  safe_signature q = true ->
  re_search q (re_sub p removed text I_S) I_S = true ->
  re_search q text I_S = true.
Proof.
  unfold safe_signature, re_search, re_sub.
  destruct (compile q) as [r|]; [|discriminate].
  destruct (shape_of r) as [[[head c] post]|] eqn:Hshape; [|discriminate].
  apply shape_of_eq in Hshape. subst r. intros Hsafe.
  destruct (compile p) as [rj|]; [|trivial].
  rewrite chars_of_chars. unfold sub.
  apply (sub_brings_no_match _ _ _ _ _ Hsafe).
Qed.

Lemma re_sub_leaves_no_match p text :
  safe_signature p = true ->
  re_search p (re_sub p removed text I_S) I_S = false.
Proof.
  unfold safe_signature, re_search, re_sub.
  destruct (compile p) as [r|]; [|discriminate].
  destruct (shape_of r) as [[[head c] post]|] eqn:Hshape; [|discriminate].
  apply shape_of_eq in Hshape. subst r. intros Hsafe.
  rewrite chars_of_chars. unfold sub.
  apply (sub_leaves_no_match _ _ _ _ _ Hsafe).
Qed.

Lemma apply_patterns_quiet todo :
  forall done text mods,
    (forall p, In p (done ++ todo) ->
               safe_signature (fst p) = true /\ snd p = removed) ->
    quiet done text ->
    quiet (done ++ todo) (fst (apply_patterns todo text mods)).
Proof.
  induction todo as [|[pattern replacement] todo IH]; intros done text mods Hsafe Hq.
  - simpl. now rewrite app_nil_r.
  - assert (Hp : safe_signature pattern = true /\ replacement = removed).
    { apply (Hsafe (pattern, replacement)). apply in_or_app. right. now left. }
    destruct Hp as [Hp ->].
    replace (done ++ (pattern, removed) :: todo)
      with ((done ++ [(pattern, removed)]) ++ todo) in *
      by now rewrite <- app_assoc.
    simpl. destruct (re_search pattern text I_S) eqn:Hs.
    + apply IH; [assumption|].
      intros q Hin. apply in_app_or in Hin. destruct Hin as [Hin|[<-|[]]].
      * destruct (re_search (fst q) (re_sub pattern removed text I_S) I_S) eqn:Hq';
          [|reflexivity].
        apply re_sub_brings_no_match in Hq'; [now rewrite (Hq q Hin) in Hq'|].
        apply Hsafe. apply in_or_app. left. apply in_or_app. now left.
      * now apply re_sub_leaves_no_match.
    + apply IH; [assumption|].
      intros q Hin. apply in_app_or in Hin. destruct Hin as [Hin|[<-|[]]]; auto.
Qed.

Lemma apply_patterns_fixed ps :
  forall text mods, quiet ps text -> apply_patterns ps text mods = (text, mods).
Proof.
  induction ps as [|[pattern replacement] ps IH]; intros text mods Hq; simpl.
  - reflexivity.
  - pose proof (Hq (pattern, replacement) (or_introl eq_refl)) as Hp.
    simpl in Hp. rewrite Hp.
    apply IH. intros q Hin. apply Hq. now right.
Qed.

Lemma rewritten_quiet text : quiet frame_busting_patterns (rewritten text).
Proof.
  apply (apply_patterns_quiet frame_busting_patterns [] text []).
  - intros p Hin. now apply catalogue_safe.
  - intros p [].
Qed.

Lemma rewritten_twice text : rewritten (rewritten text) = rewritten text.
Proof.
  unfold rewritten at 1. rewrite apply_patterns_fixed; [reflexivity|].
  apply rewritten_quiet.
Qed.

(** ** The rewriter applied twice *)

Lemma sanitize_nodes_fst l :
  forall mods, fst (sanitize_nodes l mods) = map sanitized l.
Proof.
  induction l as [|c l IH]; intros mods; simpl; [reflexivity|].
  rewrite (proj1 sanitize_acc c mods).
  specialize (IH (mods ++ snd (sanitize_node c []))).
  destruct (sanitize_nodes l (mods ++ snd (sanitize_node c []))). simpl in *.
  now rewrite IH.
Qed.

Lemma sanitized_tag name attrs contents :
  sanitized (Tag name attrs contents) =
  match new_string name contents with
  | Some modified_content => Tag name attrs [NavigableString modified_content]
  | None => Tag name attrs (map sanitized contents)
  end.
Proof.
  unfold sanitized at 1. rewrite sanitize_node_tag. unfold new_string.
  assert (Hrest : forall mods,
             fst (let '(contents', mods2) := sanitize_nodes contents mods in
                  (Tag name attrs contents', mods2)) =
             Tag name attrs (map sanitized contents)).
  { intros mods. rewrite <- (sanitize_nodes_fst contents mods).
    now destruct (sanitize_nodes contents mods). }
  destruct (String.eqb name "script"); [|apply Hrest].
  unfold sanitize_script.
  change (node_string (Tag name attrs contents))
    with (match contents with [c] => node_string c | _ => None end).
  destruct (match contents with [c] => node_string c | _ => None end) as [s|];
    [|apply Hrest].
  destruct (truthy s); [|apply Hrest].
  rewrite apply_patterns_acc. fold (rewritten s). cbv iota beta.
  destruct (String.eqb (rewritten s) s); [apply Hrest|].
  now destruct (sanitize_nodes contents _).
Qed.

(** The string of a node after the walk is its string before the walk,
    as it was or rewritten. *)
Lemma node_string_sanitized n :
  match node_string n with
  | None => node_string (sanitized n) = None
  | Some s =>
      node_string (sanitized n) = Some s \/
      node_string (sanitized n) = Some (rewritten s)
  end.
Proof.
  induction n as [s|name attrs contents IH] using Node_ind.
  - simpl. now left.
  - rewrite sanitized_tag. unfold new_string.
    change (node_string (Tag name attrs contents))
      with (match contents with [c] => node_string c | _ => None end).
    assert (Hkeep :
              match (match contents with [c] => node_string c | _ => None end) with
              | None => node_string (Tag name attrs (map sanitized contents)) = None
              | Some s =>
                  node_string (Tag name attrs (map sanitized contents)) = Some s \/
                  node_string (Tag name attrs (map sanitized contents)) =
                  Some (rewritten s)
              end).
    { destruct contents as [|c [|c' contents]]; try reflexivity.
      inversion IH as [|? ? Hc _]; subst. exact Hc. }
    destruct (String.eqb name "script"); [|exact Hkeep].
    destruct (match contents with [c] => node_string c | _ => None end) as [s|];
      [|exact Hkeep].
    destruct (truthy s); [|exact Hkeep].
    destruct (String.eqb (rewritten s) s); [exact Hkeep|].
    now right.
Qed.

Lemma new_string_rewritten name s :
  new_string name [NavigableString (rewritten s)] = None.
Proof.
  unfold new_string. destruct (String.eqb name "script"); [|reflexivity].
  simpl node_string. cbv iota beta.
  destruct (truthy (rewritten s)); [|reflexivity].
  now rewrite rewritten_twice, String.eqb_refl.
Qed.

Lemma new_string_sanitized name contents :
  new_string name contents = None ->
  new_string name (map sanitized contents) = None.
Proof.
  unfold new_string. destruct (String.eqb name "script"); [|reflexivity].
  destruct contents as [|c [|c' contents]]; try reflexivity.
  simpl map. pose proof (node_string_sanitized c) as Hc.
  destruct (node_string c) as [s|].
  - destruct Hc as [-> | ->].
    + trivial.
    + intros _. destruct (truthy (rewritten s)); [|reflexivity].
      now rewrite rewritten_twice, String.eqb_refl.
  - now rewrite Hc.
Qed.

Lemma sanitized_twice n : sanitized (sanitized n) = sanitized n.
Proof.
  induction n as [s|name attrs contents IH] using Node_ind.
  - reflexivity.
  - rewrite (sanitized_tag name attrs contents).
    destruct (new_string name contents) as [m|] eqn:Hnew.
    + assert (Hm : exists s, m = rewritten s).
      { unfold new_string in Hnew.
        destruct (String.eqb name "script"); [|discriminate].
        destruct (match contents with [c] => node_string c | _ => None end) as [s|];
          [|discriminate].
        destruct (truthy s); [|discriminate].
        destruct (String.eqb (rewritten s) s); [discriminate|].
        injection Hnew as <-. now exists s. }
      destruct Hm as [s ->].
      rewrite sanitized_tag, (new_string_rewritten name s). reflexivity.
    + rewrite sanitized_tag, (new_string_sanitized _ _ Hnew).
      f_equal. rewrite map_map. apply map_ext_in.
      intros c Hc. rewrite Forall_forall in IH. now apply IH.
Qed.

(** C6. Applying the rewriter to a document that it has already
    rewritten changes no script text, and indeed nothing: the text that
    one application leaves in a script is matched by no rewrite
    signature. *)
Theorem sanitize_javascript_idempotent :
  (forall soup,
      fst (sanitize_javascript (fst (sanitize_javascript soup))) =
      fst (sanitize_javascript soup)) /\
  (forall text pattern replacement,
      In (pattern, replacement) frame_busting_patterns ->
      re_search pattern (fst (apply_patterns frame_busting_patterns text [])) I_S
      = false).
Proof.
  split.
  - intros soup. unfold sanitize_javascript.
    rewrite !sanitize_nodes_fst, map_map.
    apply map_ext. intros n. apply sanitized_twice.
  - intros text pattern replacement Hin.
    apply (rewritten_quiet text (pattern, replacement) Hin).
Qed.

(** ** No [x-frame-options] element is left *)

Lemma clean_meta_not_x_frame_options attrs :
  match clean_meta attrs with
  | Decompose _ => True
  | _ => String.eqb (lower (get attrs "http-equiv" "")) "x-frame-options" = false
  end.
Proof.
  unfold clean_meta.
  destruct (String.eqb (lower (get attrs "http-equiv" "")) "x-frame-options");
    [exact Logic.I|].
  destruct (String.eqb (lower (get attrs "http-equiv" "")) "content-security-policy");
    [|reflexivity].
  destruct (contains "frame-ancestors" (lower (get attrs "content" "")));
    [|reflexivity].
  cbv zeta. now destruct (truthy _).
Qed.

Lemma find_all_node_tag name nm attrs contents :
  find_all_node name (Tag nm attrs contents) =
  (if String.eqb nm name then [Tag nm attrs contents] else []) ++
  find_all name contents.
Proof. reflexivity. Qed.

Lemma find_all_single name n : find_all name [n] = find_all_node name n.
Proof. unfold find_all. simpl. apply app_nil_r. Qed.

Lemma find_all_cons name n l :
  find_all name (n :: l) = find_all_node name n ++ find_all name l.
Proof. reflexivity. Qed.

Lemma no_x_frame_options_in_node n :
  forall mods,
    match fst (clean_node n mods) with
    | Some n' => none_is_x_frame_options [n']
    | None => True
    end.
Proof.
  assert (Hl : forall l,
             Forall (fun n => forall mods,
                         match fst (clean_node n mods) with
                         | Some n' => none_is_x_frame_options [n']
                         | None => True
                         end) l ->
             forall mods, none_is_x_frame_options (fst (clean_nodes l mods))).
  { induction 1 as [|c l Hc _ IH]; intros mods; simpl.
    - intros meta [].
    - specialize (Hc mods). destruct (clean_node c mods) as [c' m1].
      specialize (IH m1). destruct (clean_nodes l m1) as [l' m2]. simpl in *.
      destruct c' as [c''|]; [|exact IH].
      intros meta Hin. rewrite find_all_cons in Hin.
      apply in_app_or in Hin. destruct Hin as [Hin|Hin].
      + apply (Hc meta). now rewrite find_all_single.
      + now apply IH. }
  assert (Hself : forall name attrs' contents',
             String.eqb (lower (get attrs' "http-equiv" "")) "x-frame-options"
             = false ->
             none_is_x_frame_options contents' ->
             none_is_x_frame_options [Tag name attrs' contents']).
  { intros name attrs' contents' Hx Hcs meta Hin.
    rewrite find_all_single, find_all_node_tag in Hin. apply in_app_or in Hin.
    destruct Hin as [Hin|Hin]; [|now apply Hcs].
    destruct (String.eqb name "meta"); [|destruct Hin].
    destruct Hin as [<-|[]]. unfold is_x_frame_options. simpl.
    now apply String.eqb_neq. }
  induction n as [s|name attrs contents IH] using Node_ind; intros mods.
  - simpl. intros meta [].
  - rewrite clean_node_tag.
    destruct (String.eqb_spec name "meta") as [->|Hname].
    + pose proof (clean_meta_not_x_frame_options attrs) as Hx.
      destruct (clean_meta attrs) as [message|new_content message|].
      * exact Logic.I.
      * pose proof (Hl _ IH (mods ++ [message])) as Hcs.
        destruct (clean_nodes contents (mods ++ [message])) as [cs' m']. simpl in *.
        apply Hself; [|exact Hcs].
        now rewrite get_set_other by discriminate.
      * pose proof (Hl _ IH mods) as Hcs.
        destruct (clean_nodes contents mods) as [cs' m']. simpl in *.
        now apply Hself.
    + pose proof (Hl _ IH mods) as Hcs.
      destruct (clean_nodes contents mods) as [cs' m']. simpl in *.
      intros meta Hin. rewrite find_all_single, find_all_node_tag in Hin.
      apply String.eqb_neq in Hname. rewrite Hname in Hin. now apply Hcs.
Qed.

(** The half of C4 that holds: after the normalizer no [meta] element has
    an [http-equiv] that is [x-frame-options] up to case. *)
Lemma no_x_frame_options_left soup :
  none_is_x_frame_options (fst (clean_meta_tags soup)).
Proof.
  unfold clean_meta_tags. generalize (@nil string).
  induction soup as [|c soup IH]; intros mods; simpl.
  - intros meta [].
  - pose proof (no_x_frame_options_in_node c mods) as Hc.
    destruct (clean_node c mods) as [c' m1]. specialize (IH m1).
    destruct (clean_nodes soup m1) as [l' m2]. simpl in *.
    destruct c' as [c''|]; [|exact IH].
    intros meta Hin. rewrite find_all_cons in Hin.
    apply in_app_or in Hin. destruct Hin as [Hin|Hin].
    + apply (Hc meta). now rewrite find_all_single.
    + now apply IH.
Qed.

(** ** Instances *)



(** A viewport [meta] is left as it is, and the element of scenario C
    keeps its [http-equiv]. *)
Lemma clean_meta_tags_frame_witness :
  clean_node (Tag "meta" viewport_attrs []) [] =
  (Some (Tag "meta" viewport_attrs []), []) /\
  get (set scenario_c_attrs "content" "default-src 'self'") "http-equiv" "" =
  "Content-Security-Policy".
Proof.
  destruct clean_meta_tags_frame as (_ & Hleave & Hset). split.
  - apply (Hleave "meta" viewport_attrs [] []).
    right. left. split; vm_compute; discriminate.
  - destruct (Hset scenario_c_attrs [] [] "default-src 'self'"
                "Modified CSP meta tag to remove frame-ancestors")
      as (_ & _ & Hget).
    + vm_compute. reflexivity.
    + rewrite Hget; [reflexivity|discriminate].
Defined.

(** After the guard of scenario A is rewritten, the assignment signature
    does not match. *)
Lemma sanitize_javascript_idempotent_witness :
  re_search "top\.location\s*=\s*[^;]*;"
    (fst (apply_patterns frame_busting_patterns guard_script [])) I_S = false.
Proof.
  apply (proj2 sanitize_javascript_idempotent guard_script
           "top\.location\s*=\s*[^;]*;" removed).
  simpl. tauto.
Defined.

(** * Further properties of the code *)

(** ** The text as a list of characters *)

Lemma chars_append a b : chars (String.append a b) = chars a ++ chars b.
Proof.
  induction a as [|x a IH]; simpl; [reflexivity|].
  unfold chars in *. simpl. now rewrite IH.
Qed.

Lemma chars_length s : List.length (chars s) = String.length s.
Proof.
  induction s as [|x s IH]; simpl; [reflexivity|].
  unfold chars in *. simpl. now rewrite IH.
Qed.

Lemma chars_lower s : chars (lower s) = map lower_char (chars s).
Proof. unfold lower. apply chars_of_chars. Qed.

(** ** The detector does not look at the case of the text *)









(** ** A signature found in a text is found in every text around it *)

Lemma matches_extend f r v b :
  matches f r v = true -> matches f r (v ++ b) = true.
Proof.
  rewrite !matches_Word. intros (w & rest & -> & Hw).
  exists w, (rest ++ b). now rewrite app_assoc.
Qed.

Lemma search_embedded f r a s b :
  search f r s = true -> search f r (a ++ s ++ b) = true.
Proof.
  rewrite !search_matches. intros (u & v & -> & Hm).
  exists (a ++ u), (v ++ b). split.
  - now rewrite <- !app_assoc.
  - now apply matches_extend.
Qed.

Lemma re_search_embedded pattern before text after f :
  re_search pattern text f = true ->
  re_search pattern (String.append before (String.append text after)) f = true.
Proof.
  unfold re_search. destruct (compile pattern) as [r|]; [|discriminate].
  rewrite !chars_append. apply search_embedded.
Qed.

Lemma detect_embedded before text after p :
  In p (detect_frame_busting_patterns text) ->
  In p (detect_frame_busting_patterns
          (String.append before (String.append text after))).
Proof.
  unfold detect_frame_busting_patterns. rewrite !filter_In.
  intros [Hin Hs]. split; [assumption|]. now apply re_search_embedded.
Qed.

(** X2. Every signature that the detector reports on a text is reported
    on any text that contains it. *)
Theorem detect_is_monotone :
  forall before text after,
    incl (detect_frame_busting_patterns text)
         (detect_frame_busting_patterns
            (String.append before (String.append text after))).
Proof.
  intros before text after p. apply detect_embedded.
Qed.

(** ** Short texts *)

Lemma Word_min_length f r w : Word f r w -> min_length r <= List.length w.
Proof.
  induction 1; simpl in *; lia.
Qed.

Lemma search_min_length f r s :
  search f r s = true -> min_length r <= List.length s.
Proof.
  rewrite search_matches. intros (u & v & -> & Hm).
  apply matches_Word in Hm. destruct Hm as (w & rest & -> & Hw).
  apply Word_min_length in Hw. rewrite !length_app. lia.
Qed.

Lemma least_match_bound ps :
  forall n p text f,
    least_match ps = Some n -> In p ps -> re_search p text f = true ->
    n <= String.length text.
Proof.
  induction ps as [|q ps IH]; intros n p text f Hn Hin Hs; [destruct Hin|].
  simpl in Hn. destruct Hin as [->|Hin].
  - unfold re_search in Hs. destruct (compile p) as [r|]; [|discriminate].
    apply search_min_length in Hs. rewrite chars_length in Hs.
    destruct (least_match ps); injection Hn as <-; lia.
  - destruct (least_match ps) as [m|] eqn:Hm.
    + injection Hn as <-. specialize (IH m p text f eq_refl Hin Hs). lia.
    + destruct ps; [destruct Hin|]. simpl in Hm.
      destruct (least_match ps); discriminate.
Qed.

(** X3. A text of fewer than eleven characters, the length of the
    shortest text that a detection signature can match, is reported
    clean. *)
Theorem detect_needs_eleven_characters :
  forall text,
    String.length text < 11 -> detect_frame_busting_patterns text = [].
Proof.
  intros text Hlen.
  destruct (detect_frame_busting_patterns text) as [|p l] eqn:Hd; [reflexivity|].
  assert (Hin : In p (detect_frame_busting_patterns text)) by (rewrite Hd; now left).
  unfold detect_frame_busting_patterns in Hin. apply filter_In in Hin.
  destruct Hin as [Hin Hs].
  assert (Hleast : least_match patterns = Some 11) by (vm_compute; reflexivity).
  pose proof (least_match_bound patterns 11 p text I Hleast Hin Hs). lia.
Qed.

(** A text of ten characters. *)
Lemma detect_needs_eleven_characters_witness :
  String.length "top.locate" < 11 /\
  detect_frame_busting_patterns "top.locate" = [].
Proof.
  split; [simpl; lia|].
  apply (detect_needs_eleven_characters "top.locate"). simpl. lia.
Defined.

(** ** A signature that fires changes the text *)

Section Differs.

Variables (f : flags) (head : regex) (c : ascii) (post : regex).
Variables (first : ascii) (marker' : list ascii).

Hypothesis is_safe : safe f head c post (first :: marker') = true.

Lemma first_not_in_head : in_alphabet f head first = false.
Proof.
  destruct (safe_marker_first f head c post _ is_safe) as (x & m & Heq & Hx).
  now injection Heq as <- _.
Qed.

Lemma match_starts_in_head y v rest :
  match_here f (signature head c post) (y :: v) = Some rest ->
  in_alphabet f head y = true.
Proof.
  intros H.
  assert (Hm : matches f (signature head c post) (y :: v) = true)
    by (unfold matches; now rewrite H).
  apply (matches_shape f head c post _ is_safe) in Hm.
  destruct Hm as (w & t & Heq & Hw & _).
  destruct (safe_head_start f head c post _ is_safe w Hw)
    as (a1 & a2 & x & z & w' & -> & _).
  simpl in Heq. injection Heq as -> _.
  apply Word_alphabet in Hw. simpl in Hw. now apply andb_prop in Hw.
Qed.

Lemma match_changes_first y v rest : 
  match_here f (signature head c post) (y :: v) = Some rest -> y <> first.
Proof.
  intros H ->. apply match_starts_in_head in H.
  now rewrite first_not_in_head in H.
Qed.

Lemma sub_differs_init s :
  search f (signature head c post) s = true ->
  differs_at first s (sub_from f (signature head c post) (first :: marker') 0 s).
Proof.
  induction s as [|x s IH]; intros Hs.
  - rewrite search_nil in Hs. unfold matches in Hs.
    destruct (match_here f (signature head c post) []) as [rest|] eqn:H;
      [|discriminate].
    apply matches_not_empty in H. simpl in H. lia.
  - rewrite sub_from_cons.
    destruct (match_here f (signature head c post) (x :: s)) as [rest|] eqn:H.
    + pose proof (match_changes_first _ _ _ H) as Hx.
      destruct (List.length (x :: s) - List.length rest);
        exists [], x, s; eexists; simpl; repeat split; auto.
    + rewrite search_cons in Hs. unfold matches in Hs. rewrite H in Hs.
      destruct (IH Hs) as (u & y & o' & t' & Ho & Ht & Hy).
      exists (x :: u), y, o', t'. simpl. rewrite Ht. now rewrite Ho at 1.
Qed.

Lemma sub_differs_step o t :
  differs_at first o t ->
  differs_at first o (sub_from f (signature head c post) (first :: marker') 0 t).
Proof.
  intros (u & x & o' & t' & -> & -> & Hx). revert x o' t' Hx.
  induction u as [|y u IH]; intros x o' t' Hx.
  - simpl app. rewrite sub_from_cons.
    destruct (match_here f (signature head c post) (first :: t')) as [rest|] eqn:H.
    + now apply match_changes_first in H.
    + exists [], x, o'. eexists. simpl. repeat split; auto.
  - rewrite <- !app_comm_cons. rewrite sub_from_cons.
    destruct (match_here f (signature head c post) (y :: u ++ first :: t'))
      as [rest|] eqn:H.
    + pose proof (match_changes_first _ _ _ H) as Hy.
      destruct (List.length (y :: u ++ first :: t') - List.length rest);
        exists [], y, (u ++ x :: o'); eexists; simpl; repeat split; auto.
    + destruct (IH x o' t' Hx) as (u1 & x1 & o1 & t1 & Ho & Ht & Hx1).
      exists (y :: u1), x1, o1, t1. simpl. rewrite Ht. now rewrite Ho at 1.
Qed.

End Differs.

Lemma differs_at_neq first o t : differs_at first o t -> o <> t.
Proof.
  intros (u & x & o' & t' & -> & -> & Hx) H.
  apply app_inv_head in H. now injection H.
Qed.

Lemma removed_starts : exists marker', chars removed = "/"%char :: marker'.
Proof. eexists. reflexivity. Qed.

Lemma re_sub_differs_init p text :
  safe_signature p = true ->
  re_search p text I_S = true ->
  differs_at "/" (chars text) (chars (re_sub p removed text I_S)).
Proof.
  unfold safe_signature, re_search, re_sub.
  destruct (compile p) as [r|]; [|discriminate].
  destruct (shape_of r) as [[[head c] post]|] eqn:Hshape; [|discriminate].
  apply shape_of_eq in Hshape. subst r. intros Hsafe Hs.
  rewrite chars_of_chars. unfold sub.
  destruct removed_starts as [marker' Hm]. rewrite Hm in *.
  now apply sub_differs_init.
Qed.

Lemma re_sub_differs_step p o text :
  safe_signature p = true ->
  differs_at "/" o (chars text) ->
  differs_at "/" o (chars (re_sub p removed text I_S)).
Proof.
  unfold safe_signature, re_sub.
  destruct (compile p) as [r|]; [|discriminate].
  destruct (shape_of r) as [[[head c] post]|] eqn:Hshape; [|discriminate].
  apply shape_of_eq in Hshape. subst r. intros Hsafe Hd.
  rewrite chars_of_chars. unfold sub.
  destruct removed_starts as [marker' Hm]. rewrite Hm in *.
  now apply sub_differs_step.
Qed.

Lemma apply_patterns_changes ps :
  (forall p, In p ps -> safe_signature (fst p) = true /\ snd p = removed) ->
  forall o text,
    chars text = o \/ differs_at "/" o (chars text) ->
    (snd (apply_patterns ps text []) = [] /\
     fst (apply_patterns ps text []) = text) \/
    (snd (apply_patterns ps text []) <> [] /\
     differs_at "/" o (chars (fst (apply_patterns ps text [])))).
Proof.
  induction ps as [|[pattern replacement] ps IH]; intros Hsafe o text Ho.
  - left. now split.
  - destruct (Hsafe (pattern, replacement) (or_introl eq_refl)) as [Hp Hr].
    simpl in Hp, Hr. subst replacement.
    assert (Hps : forall p, In p ps ->
                            safe_signature (fst p) = true /\ snd p = removed)
      by (intros p Hin; apply Hsafe; now right).
    simpl. destruct (re_search pattern text I_S) eqn:Hs.
    + right. rewrite apply_patterns_acc. simpl. split; [discriminate|].
      assert (Hd : differs_at "/" o (chars (re_sub pattern removed text I_S))).
      { destruct Ho as [<-|Ho].
        - now apply re_sub_differs_init.
        - now apply re_sub_differs_step. }
      destruct (IH Hps o _ (or_intror Hd)) as [[_ ->]|[_ H]]; assumption.
    + now apply IH.
Qed.

Lemma apply_patterns_entries_iff text :
  snd (apply_patterns frame_busting_patterns text []) = [] <->
  fst (apply_patterns frame_busting_patterns text []) = text.
Proof.
  destruct (apply_patterns_changes frame_busting_patterns catalogue_safe
              (chars text) text (or_introl eq_refl)) as [[Hs Hf]|[Hs Hd]].
  - now split.
  - split; [contradiction|]. intros Heq. rewrite Heq in Hd.
    now apply differs_at_neq in Hd.
Qed.

(** X4. The loop over the signatures adds an entry for a script exactly
    when it changes the text of the script. *)
Theorem entries_iff_text_changed :
  forall text,
    snd (apply_patterns frame_busting_patterns text []) = [] <->
    fst (apply_patterns frame_busting_patterns text []) = text.
Proof. exact apply_patterns_entries_iff. Qed.

(** ** Entries and changes in a document *)

Lemma sanitize_nodes_snd l :
  snd (sanitize_nodes l []) = flat_map (fun c => snd (sanitize_node c [])) l.
Proof.
  induction l as [|c l IH]; simpl; [reflexivity|].
  rewrite (proj1 sanitize_acc c []).
  rewrite (proj2 sanitize_acc l). rewrite IH.
  now destruct (sanitize_nodes l []).
Qed.

Lemma sanitize_node_snd name attrs contents :
  snd (sanitize_node (Tag name attrs contents) []) =
  own_entries name contents ++ snd (sanitize_nodes contents []).
Proof.
  rewrite sanitize_node_tag. unfold own_entries.
  assert (Hrest : forall o (mods : list string),
             snd (let '(contents', mods2) := sanitize_nodes contents mods in
                  match o with
                  | Some m => (Tag name attrs [NavigableString m], mods2)
                  | None => (Tag name attrs contents', mods2)
                  end) = mods ++ snd (sanitize_nodes contents [])).
  { intros o mods. rewrite (proj2 sanitize_acc contents mods).
    now destruct o. }
  destruct (String.eqb name "script"); [|apply (Hrest None [])].
  unfold sanitize_script.
  change (node_string (Tag name attrs contents))
    with (match contents with [c] => node_string c | _ => None end).
  destruct (match contents with [c] => node_string c | _ => None end) as [s|];
    [|apply (Hrest None [])].
  destruct (truthy s); [|apply (Hrest None [])].
  destruct (apply_patterns frame_busting_patterns s []) as [t ms].
  destruct (String.eqb t s); [apply (Hrest None ms)|apply (Hrest (Some t) ms)].
Qed.

Lemma own_entries_nil name contents :
  own_entries name contents = [] <-> new_string name contents = None.
Proof.
  unfold own_entries, new_string.
  destruct (String.eqb name "script"); [|tauto].
  destruct (match contents with [c] => node_string c | _ => None end) as [s|];
    [|tauto].
  destruct (truthy s); [|tauto].
  rewrite apply_patterns_entries_iff. unfold rewritten.
  destruct (String.eqb_spec (fst (apply_patterns frame_busting_patterns s [])) s);
    split; intros; congruence.
Qed.

Lemma map_fixed {A : Type} (g : A -> A) l :
  map g l = l <-> Forall (fun x => g x = x) l.
Proof.
  induction l as [|x l IH]; simpl.
  - split; [constructor|reflexivity].
  - split.
    + intros [= Hx Hl]. constructor; [assumption|now apply IH].
    + intros H. inversion H; subst. f_equal; [assumption|now apply IH].
Qed.

Lemma flat_map_nil {A B : Type} (g : A -> list B) l :
  flat_map g l = [] <-> Forall (fun x => g x = []) l.
Proof.
  induction l as [|x l IH]; simpl.
  - split; [constructor|reflexivity].
  - split.
    + intros H. apply app_eq_nil in H. destruct H as [Hx Hl].
      constructor; [assumption|now apply IH].
    + intros H. inversion H as [|? ? Hx Hl]; subst.
      rewrite Hx. now apply IH.
Qed.

Lemma new_string_changes name attrs contents m :
  new_string name contents = Some m ->
  Tag name attrs [NavigableString m] <> Tag name attrs contents.
Proof.
  unfold new_string. destruct (String.eqb name "script"); [|discriminate].
  intros H [= <-]. simpl node_string in H. cbv iota beta in H.
  destruct (truthy m); [|discriminate].
  destruct (String.eqb_spec (rewritten m) m) as [|Hne]; [discriminate|].
  injection H as H. contradiction.
Qed.

Lemma sanitize_node_entries_iff n :
  snd (sanitize_node n []) = [] <-> sanitized n = n.
Proof.
  induction n as [s|name attrs contents IH] using Node_ind.
  - simpl. tauto.
  - rewrite sanitize_node_snd, sanitized_tag, sanitize_nodes_snd.
    assert (Hchildren :
              flat_map (fun c => snd (sanitize_node c [])) contents = [] <->
              map sanitized contents = contents).
    { rewrite flat_map_nil, (map_fixed sanitized contents), !Forall_forall.
      rewrite Forall_forall in IH.
      split; intros H c Hc; apply (IH c Hc); now apply H. }
    split.
    + intros H. apply app_eq_nil in H. destruct H as [Hown Hrest].
      apply own_entries_nil in Hown. rewrite Hown. f_equal. now apply Hchildren.
    + destruct (new_string name contents) as [m|] eqn:Hnew.
      * intros H. now apply new_string_changes with (attrs := attrs) in Hnew.
      * intros [= H]. apply own_entries_nil in Hnew. rewrite Hnew.
        now apply Hchildren.
Qed.

(** X5. The rewriter returns an empty list exactly when it leaves the
    document as it was. *)
Theorem sanitize_javascript_entries_iff_changed :
  forall soup,
    snd (sanitize_javascript soup) = [] <-> fst (sanitize_javascript soup) = soup.
Proof.
  intros soup. unfold sanitize_javascript.
  rewrite sanitize_nodes_snd, sanitize_nodes_fst, flat_map_nil.
  rewrite (map_fixed sanitized soup), !Forall_forall.
  split; intros H c Hc; apply sanitize_node_entries_iff; now apply H.
Qed.

(** ** Outside the scripts *)

Lemma new_string_is_script name contents m :
  new_string name contents = Some m -> String.eqb name "script" = true.
Proof.
  unfold new_string. now destruct (String.eqb name "script").
Qed.

Lemma blank_scripts_sanitized n : blank_scripts (sanitized n) = blank_scripts n.
Proof.
  induction n as [s|name attrs contents IH] using Node_ind.
  - reflexivity.
  - rewrite sanitized_tag.
    destruct (new_string name contents) as [m|] eqn:Hnew.
    + apply new_string_is_script in Hnew. simpl. now rewrite Hnew.
    + simpl. destruct (String.eqb name "script"); [reflexivity|].
      f_equal. rewrite map_map. apply map_ext_in.
      intros c Hc. rewrite Forall_forall in IH. now apply IH.
Qed.

(** X6. The rewriter changes nothing outside the script elements: the
    document with every script emptied is the same before and after, so
    every element keeps its place, its name and its attributes, and every
    text outside a script is kept. *)
Theorem sanitize_javascript_frame :
  forall soup,
    map blank_scripts (fst (sanitize_javascript soup)) = map blank_scripts soup.
Proof.
  intros soup. unfold sanitize_javascript.
  rewrite sanitize_nodes_fst, map_map.
  apply map_ext. intros n. apply blank_scripts_sanitized.
Qed.

(** ** The rewriter brings no signature to the detector *)

Lemma match_open_once f a r t :
  match_open f ((a, Once) :: r) t =
  match t with
  | [] => true
  | x :: t' => if accepts f a x then match_open f r t' else false
  end.
Proof. reflexivity. Qed.

Lemma match_open_optional f a r t :
  match_open f ((a, Optional) :: r) t =
  match t with
  | [] => true
  | x :: t' =>
      if accepts f a x then
        if match_open f r t' then true else match_open f r t
      else match_open f r t
  end.
Proof. reflexivity. Qed.

Lemma match_open_star f a r t :
  match_open f ((a, ZeroOrMore) :: r) t =
  match t with
  | [] => true
  | x :: t' =>
      if accepts f a x then
        if match_open f ((a, ZeroOrMore) :: r) t' then true else match_open f r t
      else match_open f r t
  end.
Proof. destruct t; reflexivity. Qed.

Lemma Word_open f r w :
  Word f r w ->
  forall t v rest, t ++ v = w ++ rest -> match_open f r t = true.
Proof.
  induction 1 as [|a r x w Ha _ IH|a r w _ IH|a r x w Ha _ IH|a r w _ IH
                  |a r x w Ha _ IH]; intros t v rest Heq.
  - reflexivity.
  - rewrite match_open_once. destruct t as [|y t]; [reflexivity|].
    simpl in Heq. injection Heq as -> Heq. rewrite Ha. now apply (IH t v rest).
  - rewrite match_open_optional. destruct t as [|y t]; [reflexivity|].
    rewrite (IH (y :: t) v rest Heq).
    destruct (accepts f a y); [|reflexivity]. now destruct (match_open f r t).
  - rewrite match_open_optional. destruct t as [|y t]; [reflexivity|].
    simpl in Heq. injection Heq as -> Heq. now rewrite Ha, (IH t v rest Heq).
  - rewrite match_open_star. destruct t as [|y t]; [reflexivity|].
    rewrite (IH (y :: t) v rest Heq).
    destruct (accepts f a y); [|reflexivity].
    now destruct (match_open f ((a, ZeroOrMore) :: r) t).
  - rewrite match_open_star. destruct t as [|y t]; [reflexivity|].
    simpl in Heq. injection Heq as -> Heq. now rewrite Ha, (IH t v rest Heq).
Qed.

Lemma tails_suffix u t : In t (tails (u ++ t)).
Proof.
  induction u as [|x u IH]; simpl.
  - destruct t; now left.
  - now right.
Qed.

Section Clear.

Variables (f : flags) (d : regex) (marker : list ascii).
Hypothesis is_clear : clear_of f d marker = true.

(** The flags and the signature of the substitution; they may be any. *)
Variables (fj : flags) (rj : regex).

Lemma clear_first :
  exists first marker', marker = first :: marker' /\ in_alphabet f d first = false.
Proof.
  unfold clear_of in is_clear. apply andb_prop in is_clear.
  destruct is_clear as [H _]. destruct marker as [|first marker']; [discriminate|].
  exists first, marker'. split; [reflexivity|now apply negb_true_iff in H].
Qed.

Lemma clear_inside u x t v :
  marker = u ++ x :: t -> matches f d ((x :: t) ++ v) = false.
Proof.
  intros Hm. destruct (matches f d ((x :: t) ++ v)) eqn:H; [|reflexivity].
  apply matches_Word in H. destruct H as (w & rest & Heq & Hw).
  pose proof (Word_open f d w Hw (x :: t) v rest Heq) as Hopen.
  unfold clear_of in is_clear. apply andb_prop in is_clear.
  destruct is_clear as [_ Hall]. rewrite forallb_forall in Hall.
  specialize (Hall (x :: t)). rewrite Hm in Hall.
  specialize (Hall (tails_suffix u (x :: t))). simpl in Hall.
  now rewrite Hopen in Hall.
Qed.

Lemma clear_behind_marker v :
  search f d (marker ++ v) = true -> search f d v = true.
Proof.
  intros H. apply search_matches in H. destruct H as (u0 & v0 & Heq & Hm).
  apply app_eq_app in Heq. destruct Heq as (l & [[Hmarker Hv0]|[Hu0 Hv]]).
  - destruct l as [|x t].
    + simpl in Hv0. subst v0. apply search_matches. now exists [], v.
    + subst v0. now rewrite (clear_inside u0 x t v Hmarker) in Hm.
  - apply search_matches. now exists l, v0.
Qed.

Lemma clear_keeps_prefix w :
  forallb (in_alphabet f d) w = true ->
  forall s t, sub_from fj rj marker 0 s = w ++ t -> exists t', s = w ++ t'.
Proof.
  destruct clear_first as (first & marker' & Hmarker & Hfirst).
  induction w as [|y w IH]; intros Hw s t H.
  - now exists s.
  - simpl in Hw. apply andb_prop in Hw. destruct Hw as [Hy Hw].
    assert (Hstart : forall l, marker ++ l <> (y :: w) ++ t).
    { intros l. rewrite Hmarker. simpl. intros [= -> _]. congruence. }
    destruct s as [|x s].
    + simpl in H. destruct (match_here fj rj []).
      * exfalso. apply (Hstart []). now rewrite app_nil_r.
      * discriminate.
    + rewrite sub_from_cons in H.
      destruct (match_here fj rj (x :: s)) as [rest|].
      * exfalso. destruct (List.length (x :: s) - List.length rest);
          now apply Hstart in H.
      * simpl in H. injection H as -> H.
        destruct (IH Hw _ _ H) as [t' ->]. now exists t'.
Qed.

Lemma clear_before_sub x s :
  matches f d (x :: sub_from fj rj marker 0 s) = true ->
  matches f d (x :: s) = true.
Proof.
  intros H. apply matches_Word in H. destruct H as (w & rest & Heq & Hw).
  apply matches_Word. destruct w as [|y w].
  - exists [], (x :: s). now split.
  - simpl in Heq. injection Heq as <- Heq.
    pose proof (Word_alphabet f d _ Hw) as Halpha. simpl in Halpha.
    apply andb_prop in Halpha. destruct Halpha as [_ Halpha].
    destruct (clear_keeps_prefix w Halpha _ _ Heq) as [t' ->].
    now exists (x :: w), t'.
Qed.

Lemma clear_sub s :
  forall k, search f d (sub_from fj rj marker k s) = true -> search f d s = true.
Proof.
  induction s as [|x s IH]; intros k.
  - simpl sub_from. destruct k; [|trivial].
    destruct (match_here fj rj []); [|trivial].
    intros H. rewrite <- (app_nil_r marker) in H. now apply clear_behind_marker in H.
  - assert (Hx : search f d (x :: sub_from fj rj marker 0 s) = true ->
                 search f d (x :: s) = true).
    { rewrite !search_cons. intros H.
      apply orb_prop in H. destruct H as [H|H].
      - now rewrite (clear_before_sub _ _ H).
      - rewrite (IH _ H). apply orb_true_r. }
    destruct k as [|k].
    + rewrite sub_from_cons.
      destruct (match_here fj rj (x :: s)) as [rest|]; [|exact Hx].
      destruct (List.length (x :: s) - List.length rest); intros H;
        apply clear_behind_marker in H.
      * now apply Hx.
      * rewrite search_cons, (IH _ H). apply orb_true_r.
    + simpl sub_from. intros H. rewrite search_cons, (IH _ H). apply orb_true_r.
Qed.

End Clear.

Lemma detection_is_clear : forallb clear_signature patterns = true.
Proof. vm_compute. reflexivity. Qed.

Lemma re_sub_detect d p text :
  clear_signature d = true ->
  re_search d (re_sub p removed text I_S) I = true ->
  re_search d text I = true.
Proof.
  unfold clear_signature, re_search, re_sub.
  destruct (compile d) as [r|]; [|discriminate]. intros Hclear.
  destruct (compile p) as [rj|]; [|trivial].
  rewrite chars_of_chars. unfold sub.
  apply (clear_sub _ _ _ Hclear).
Qed.

Lemma apply_patterns_detect d ps :
  clear_signature d = true ->
  (forall p, In p ps -> snd p = removed) ->
  forall text,
    re_search d (fst (apply_patterns ps text [])) I = true ->
    re_search d text I = true.
Proof.
  intros Hclear. induction ps as [|[pattern replacement] ps IH]; intros Hps text.
  - trivial.
  - pose proof (Hps _ (or_introl eq_refl)) as Hr. simpl in Hr. subst replacement.
    assert (Hps' : forall p, In p ps -> snd p = removed)
      by (intros p Hin; apply Hps; now right).
    simpl. destruct (re_search pattern text I_S).
    + rewrite apply_patterns_acc. simpl. intros H.
      apply (IH Hps') in H. now apply re_sub_detect in H.
    + now apply IH.
Qed.

(** X7. Rewriting the text of a script brings no signature to the
    detector: what it reports on the rewritten text, it reports on the
    text as it was. *)
Theorem rewriting_adds_no_detection :
  forall text,
    incl (detect_frame_busting_patterns
            (fst (apply_patterns frame_busting_patterns text [])))
         (detect_frame_busting_patterns text).
Proof.
  intros text d. unfold detect_frame_busting_patterns. rewrite !filter_In.
  intros [Hin Hs]. split; [assumption|].
  pose proof detection_is_clear as Hall. rewrite forallb_forall in Hall.
  apply (apply_patterns_detect d frame_busting_patterns (Hall d Hin)
           (fun p Hp => proj2 (catalogue_safe p Hp)) text Hs).
Qed.

(** ** The length of a text after a substitution *)

Lemma match_here_length f r s rest :
  match_here f r s = Some rest ->
  List.length rest + min_length r <= List.length s.
Proof.
  intros H. destruct (match_here_sound f r s rest H) as (w & -> & Hw).
  apply Word_min_length in Hw. rewrite length_app. lia.
Qed.

Lemma sub_from_length f r repl :
  List.length repl <= min_length r -> 0 < min_length r ->
  forall s k, k <= List.length s ->
              List.length (sub_from f r repl k s) + k <= List.length s.
Proof.
  intros Hrepl Hpos. induction s as [|x s IH]; intros k Hk.
  - simpl in Hk. assert (k = 0) as -> by lia. simpl.
    destruct (match_here f r []) as [rest|] eqn:H; [|simpl; lia].
    apply match_here_length in H. simpl in H. lia.
  - destruct k as [|k].
    + rewrite sub_from_cons.
      destruct (match_here f r (x :: s)) as [rest|] eqn:H.
      * apply match_here_length in H.
        destruct (List.length (x :: s) - List.length rest) as [|k] eqn:Hn;
          [lia|].
        change (List.length (x :: s)) with (S (List.length s)) in Hn, H.
        rewrite length_app.
        assert (Hks : k <= List.length s) by lia.
        specialize (IH k Hks). simpl. lia.
      * specialize (IH 0 (Nat.le_0_l _)). simpl. lia.
    + simpl in Hk. specialize (IH k (le_S_n _ _ Hk)). simpl. lia.
Qed.

Lemma sub_length f r repl s :
  List.length repl <= min_length r -> 0 < min_length r ->
  List.length (sub f r repl s) <= List.length s.
Proof.
  intros Hrepl Hpos. unfold sub.
  pose proof (sub_from_length f r repl Hrepl Hpos s 0 (Nat.le_0_l _)). lia.
Qed.

Lemma sub_shortens f r repl s :
  List.length repl < min_length r ->
  search f r s = true ->
  List.length (sub f r repl s) < List.length s.
Proof.
  intros Hrepl. unfold sub.
  assert (Hle : List.length repl <= min_length r) by lia.
  assert (Hpos : 0 < min_length r) by lia.
  induction s as [|x s IH]; intros Hs.
  - apply search_min_length in Hs. simpl in Hs. lia.
  - rewrite sub_from_cons.
    destruct (match_here f r (x :: s)) as [rest|] eqn:H.
    + apply match_here_length in H.
      destruct (List.length (x :: s) - List.length rest) as [|k] eqn:Hn; [lia|].
      change (List.length (x :: s)) with (S (List.length s)) in Hn, H.
        rewrite length_app.
      assert (Hks : k <= List.length s) by lia.
      pose proof (sub_from_length f r repl Hle Hpos s k Hks). simpl. lia.
    + rewrite search_cons in Hs. unfold matches in Hs. rewrite H in Hs.
      specialize (IH Hs). simpl. lia.
Qed.

Lemma lstrip_chars_length set s :
  List.length (lstrip_chars set s) <= List.length s.
Proof.
  induction s as [|x s IH]; simpl; [lia|].
  destruct (mem_char x set); simpl; lia.
Qed.

Lemma strip_length set s : String.length (strip set s) <= String.length s.
Proof.
  unfold strip, rstrip_chars.
  rewrite <- !chars_length, chars_of_chars, length_rev.
  etransitivity; [apply lstrip_chars_length|].
  rewrite length_rev. apply lstrip_chars_length.
Qed.

(** ** The directive is found where the test for it succeeds *)

Lemma starts_with_literals word :
  forallb (fun c => Ascii.eqb (lower_char c) c) word = true ->
  forall s,
    starts_with word (map lower_char s) = true ->
    forallb (fun p => same_char I (fst p) (snd p))
      (combine word (firstn (List.length word) s))
    && Nat.leb (List.length word) (List.length s) = true.
Proof.
  induction word as [|c word IH]; intros Hlow s Hs; [reflexivity|].
  simpl in Hlow. apply andb_prop in Hlow. destruct Hlow as [Hc Hlow].
  destruct s as [|x s]; [discriminate|].
  simpl in Hs. apply andb_prop in Hs. destruct Hs as [Hx Hs].
  simpl. unfold same_char at 1. simpl IGNORECASE. cbv iota.
  apply Ascii.eqb_eq in Hc, Hx. rewrite Hc, <- Hx, Ascii.eqb_refl.
  apply (IH Hlow s Hs).
Qed.

Lemma contains_directive s :
  contains_chars (chars "frame-ancestors") (map lower_char s) = true ->
  search I directive s = true.
Proof.
  assert (Hhere : forall s,
             starts_with (chars "frame-ancestors") (map lower_char s) = true ->
             matches I directive s = true).
  { intros s0 H. unfold matches, directive. rewrite literals_then.
    rewrite (starts_with_literals (chars "frame-ancestors") eq_refl s0 H).
    now rewrite directive_tail. }
  induction s as [|x s IH].
  - discriminate.
  - intros H. rewrite search_cons.
    change (map lower_char (x :: s)) with (lower_char x :: map lower_char s) in H.
    simpl contains_chars in H. apply orb_prop in H. destruct H as [H|H].
    + rewrite (Hhere (x :: s)); [reflexivity|exact H].
    + rewrite (IH H). apply orb_true_r.
Qed.

Lemma of_chars_length l : String.length (of_chars l) = List.length l.
Proof. now rewrite <- chars_length, chars_of_chars. Qed.

Lemma new_content_is_shorter content :
  contains "frame-ancestors" (lower content) = true ->
  String.length
    (strip "; "
       (re_sub ";\s*;" ";" (re_sub "frame-ancestors[^;]*;?" "" content I) no_flags))
  < String.length content.
Proof.
  intros Hfa. unfold contains in Hfa. rewrite chars_lower in Hfa.
  apply contains_directive in Hfa.
  eapply Nat.le_lt_trans; [apply strip_length|].
  unfold re_sub.
  change (compile ";\s*;") with (Some doubled_semicolon).
  change (compile "frame-ancestors[^;]*;?") with (Some directive).
  cbv iota beta.
  rewrite !of_chars_length, chars_of_chars.
  eapply Nat.le_lt_trans.
  - apply sub_length; simpl; lia.
  - rewrite <- chars_length. apply sub_shortens; [simpl; lia|exact Hfa].
Qed.

Lemma clean_meta_set_content attrs new_content message :
  clean_meta attrs = SetContent new_content message ->
  String.length new_content < String.length (get attrs "content" "") /\
  new_content <> "".
Proof.
  unfold clean_meta.
  destruct (String.eqb (lower (get attrs "http-equiv" "")) "x-frame-options");
    [discriminate|].
  destruct (String.eqb (lower (get attrs "http-equiv" "")) "content-security-policy");
    [|discriminate].
  destruct (contains "frame-ancestors" (lower (get attrs "content" ""))) eqn:Hfa;
    [|discriminate].
  cbv zeta.
  destruct (truthy _) eqn:Ht; [|discriminate].
  intros [= <- _]. split.
  - now apply new_content_is_shorter.
  - intros H. rewrite H in Ht. discriminate.
Qed.

(** X8. The content that the normalizer writes back into a
    [content-security-policy] element is never empty and is always
    shorter than the content it replaces. *)
Theorem written_content_is_shorter :
  forall attrs new_content message,
    clean_meta attrs = SetContent new_content message ->
    String.length new_content < String.length (get attrs "content" "") /\
    new_content <> "".
Proof. exact clean_meta_set_content. Qed.

(** The element of scenario C. *)
Lemma written_content_is_shorter_witness :
  String.length "default-src 'self'" <
  String.length (get scenario_c_attrs "content" "") /\
  "default-src 'self'" <> "".
Proof.
  apply (written_content_is_shorter scenario_c_attrs "default-src 'self'"
           "Modified CSP meta tag to remove frame-ancestors").
  vm_compute. reflexivity.
Defined.

(** ** Entries and changes of the normalizer *)

Lemma clean_acc :
  (forall n mods,
      clean_node n mods = (cleaned n, mods ++ snd (clean_node n []))) /\
  (forall l mods,
      clean_nodes l mods = (cleaned_nodes l, mods ++ snd (clean_nodes l []))).
Proof.
  unfold cleaned, cleaned_nodes.
  assert (Hl : forall l, Forall (fun n => forall mods,
             clean_node n mods =
             (fst (clean_node n []), mods ++ snd (clean_node n []))) l ->
           forall mods, clean_nodes l mods =
             (fst (clean_nodes l []), mods ++ snd (clean_nodes l []))).
  { induction 1 as [|c l Hc _ IH]; intros mods; simpl.
    - now rewrite app_nil_r.
    - rewrite Hc. destruct (clean_node c []) as [c' m1]. simpl.
      rewrite IH. rewrite (IH m1).
      destruct (clean_nodes l []) as [l' m2]. simpl.
      now rewrite app_assoc. }
  assert (Hn : forall n mods, clean_node n mods =
             (fst (clean_node n []), mods ++ snd (clean_node n []))).
  { induction n as [s|name attrs contents IH] using Node_ind; intros mods.
    - simpl. now rewrite app_nil_r.
    - rewrite !clean_node_tag.
      destruct (if String.eqb name "meta" then clean_meta attrs else Leave)
        as [message|new_content message|].
      + reflexivity.
      + rewrite (Hl _ IH). rewrite (Hl _ IH ([] ++ [message])).
        destruct (clean_nodes contents []) as [l' m2]. simpl.
        now rewrite <- app_assoc.
      + rewrite (Hl _ IH). destruct (clean_nodes contents []) as [l' m2].
        reflexivity. }
  split; [exact Hn|].
  intros l. apply Hl. apply Forall_forall. intros n _. apply Hn.
Qed.

Lemma cleaned_nodes_cons c l :
  cleaned_nodes (c :: l) =
  match cleaned c with
  | Some c' => c' :: cleaned_nodes l
  | None => cleaned_nodes l
  end.
Proof.
  unfold cleaned_nodes at 1. simpl.
  rewrite (proj1 clean_acc c []). rewrite (proj2 clean_acc l).
  reflexivity.
Qed.

Lemma clean_nodes_snd_cons c l :
  snd (clean_nodes (c :: l) []) = snd (clean_node c []) ++ snd (clean_nodes l []).
Proof.
  simpl. rewrite (proj1 clean_acc c []). rewrite (proj2 clean_acc l).
  reflexivity.
Qed.

Lemma cleaned_tag name attrs contents :
  cleaned (Tag name attrs contents) =
  match (if String.eqb name "meta" then clean_meta attrs else Leave) with
  | Decompose _ => None
  | SetContent new_content _ =>
      Some (Tag name (set attrs "content" new_content) (cleaned_nodes contents))
  | Leave => Some (Tag name attrs (cleaned_nodes contents))
  end.
Proof.
  unfold cleaned. rewrite clean_node_tag.
  destruct (if String.eqb name "meta" then clean_meta attrs else Leave).
  - reflexivity.
  - now rewrite (proj2 clean_acc contents).
  - now rewrite (proj2 clean_acc contents).
Qed.

Lemma clean_node_snd_tag name attrs contents :
  snd (clean_node (Tag name attrs contents) []) =
  match (if String.eqb name "meta" then clean_meta attrs else Leave) with
  | Decompose message => [message]
  | SetContent _ message => message :: snd (clean_nodes contents [])
  | Leave => snd (clean_nodes contents [])
  end.
Proof.
  rewrite clean_node_tag.
  destruct (if String.eqb name "meta" then clean_meta attrs else Leave).
  - reflexivity.
  - now rewrite (proj2 clean_acc contents).
  - now rewrite (proj2 clean_acc contents).
Qed.

Lemma cleaned_nodes_length l : List.length (cleaned_nodes l) <= List.length l.
Proof.
  induction l as [|c l IH]; [reflexivity|].
  rewrite cleaned_nodes_cons. destruct (cleaned c); simpl; lia.
Qed.

Lemma cleaned_nodes_fixed l :
  cleaned_nodes l = l <-> Forall (fun c => cleaned c = Some c) l.
Proof.
  induction l as [|c l IH].
  - split; [constructor|reflexivity].
  - rewrite cleaned_nodes_cons. split.
    + destruct (cleaned c) as [c'|] eqn:Hc.
      * intros [= -> Hl]. constructor; [exact Hc|now apply IH].
      * intros H. pose proof (cleaned_nodes_length l) as Hlen.
        rewrite H in Hlen. simpl in Hlen. lia.
    + intros H. inversion H as [|? ? Hc Hl]; subst. rewrite Hc.
      f_equal. now apply IH.
Qed.

Lemma clean_nodes_snd_nil l :
  snd (clean_nodes l []) = [] <-> Forall (fun c => snd (clean_node c []) = []) l.
Proof.
  induction l as [|c l IH].
  - split; [constructor|reflexivity].
  - rewrite clean_nodes_snd_cons. split.
    + intros H. apply app_eq_nil in H. destruct H as [Hc Hl].
      constructor; [assumption|now apply IH].
    + intros H. inversion H as [|? ? Hc Hl]; subst. rewrite Hc. now apply IH.
Qed.

Lemma clean_node_entries_iff n :
  snd (clean_node n []) = [] <-> cleaned n = Some n.
Proof.
  induction n as [s|name attrs contents IH] using Node_ind.
  - simpl. unfold cleaned. simpl. tauto.
  - rewrite clean_node_snd_tag, cleaned_tag.
    assert (Hchildren : snd (clean_nodes contents []) = [] <->
                        cleaned_nodes contents = contents).
    { rewrite clean_nodes_snd_nil, cleaned_nodes_fixed, !Forall_forall.
      rewrite Forall_forall in IH.
      split; intros H c Hc; apply (IH c Hc); now apply H. }
    destruct (if String.eqb name "meta" then clean_meta attrs else Leave)
      as [message|new_content message|] eqn:Hstep.
    + split; discriminate.
    + split; [discriminate|]. intros [= Hset _]. exfalso.
      assert (Hmeta : clean_meta attrs = SetContent new_content message)
        by (destruct (String.eqb name "meta"); [assumption|discriminate]).
      apply clean_meta_set_content in Hmeta. destruct Hmeta as [Hlen _].
      rewrite <- Hset, get_set_same in Hlen. lia.
    + rewrite Hchildren. split; [now intros ->|now intros [= ->]].
Qed.

(** X9. The normalizer returns an empty list exactly when it leaves the
    document as it was. *)
Theorem clean_meta_tags_entries_iff_changed :
  forall soup,
    snd (clean_meta_tags soup) = [] <-> fst (clean_meta_tags soup) = soup.
Proof.
  intros soup. unfold clean_meta_tags.
  change (fst (clean_nodes soup [])) with (cleaned_nodes soup).
  rewrite clean_nodes_snd_nil, (cleaned_nodes_fixed soup), !Forall_forall.
  split; intros H c Hc; apply clean_node_entries_iff; now apply H.
Qed.

(** ** The rewriter and the normalizer do not disturb each other *)

Lemma texts_cleaned l :
  forallb is_text l = true ->
  cleaned_nodes l = l /\ snd (clean_nodes l []) = [].
Proof.
  induction l as [|c l IH]; intros H; [now split|].
  simpl in H. apply andb_prop in H. destruct H as [Hc Hl].
  destruct (IH Hl) as [IH1 IH2].
  destruct c as [|s]; [discriminate|].
  rewrite cleaned_nodes_cons, clean_nodes_snd_cons, IH1, IH2. now split.
Qed.

Lemma texts_sanitized l :
  forallb is_text l = true -> map sanitized l = l.
Proof.
  induction l as [|c l IH]; intros H; [reflexivity|].
  simpl in H. apply andb_prop in H. destruct H as [Hc Hl].
  destruct c as [|s]; [discriminate|]. simpl. now rewrite (IH Hl).
Qed.

Lemma independent_nodes l :
  Forall independent l ->
  cleaned_nodes (map sanitized l) = map sanitized (cleaned_nodes l) /\
  snd (clean_nodes (map sanitized l) []) = snd (clean_nodes l []) /\
  snd (sanitize_nodes (cleaned_nodes l) []) = snd (sanitize_nodes l []).
Proof.
  induction 1 as [|c l (Ha & Hb & Hc) _ (IHa & IHb & IHc)]; [now repeat split|].
  rewrite !sanitize_nodes_snd in *.
  simpl map. rewrite !cleaned_nodes_cons, !clean_nodes_snd_cons, Ha, Hb, IHb.
  destruct (cleaned c) as [c'|]; simpl.
  - now rewrite IHa, IHc, Hc.
  - now rewrite IHa, IHc, Hc.
Qed.

Lemma new_string_not_script name contents :
  String.eqb name "script" = false -> new_string name contents = None.
Proof. unfold new_string. now intros ->. Qed.

Lemma own_entries_not_script name contents :
  String.eqb name "script" = false -> own_entries name contents = [].
Proof. unfold own_entries. now intros ->. Qed.

Lemma parsed_shape_independent n : parsed_shape n = true -> independent n.
Proof.
  induction n as [s|name attrs contents IH] using Node_ind; intros Hshape.
  - now repeat split.
  - simpl in Hshape. unfold independent.
    destruct (String.eqb name "meta") eqn:Hmeta.
    + destruct contents; [|discriminate].
      apply String.eqb_eq in Hmeta. subst name.
      assert (Hs : forall a, sanitized (Tag "meta" a []) = Tag "meta" a [])
        by (intros a; now rewrite sanitized_tag).
      assert (He : forall a, snd (sanitize_node (Tag "meta" a []) []) = [])
        by (intros a; now rewrite sanitize_node_snd).
      rewrite Hs, cleaned_tag. simpl String.eqb. cbv iota.
      destruct (clean_meta attrs); simpl; rewrite ?Hs, ?He; now repeat split.
    + destruct (String.eqb name "script") eqn:Hscript.
      * destruct (texts_cleaned _ Hshape) as [Hc He].
        assert (Hclean : forall cs,
                   forallb is_text cs = true ->
                   cleaned (Tag name attrs cs) = Some (Tag name attrs cs) /\
                   snd (clean_node (Tag name attrs cs) []) = []).
        { intros cs Hcs. destruct (texts_cleaned _ Hcs) as [H1 H2].
          rewrite cleaned_tag, clean_node_snd_tag, Hmeta, H1, H2. now split. }
        destruct (Hclean _ Hshape) as [-> ->].
        assert (Hsan : exists cs,
                   sanitized (Tag name attrs contents) = Tag name attrs cs /\
                   forallb is_text cs = true).
        { rewrite sanitized_tag. destruct (new_string name contents) as [m|].
          - now exists [NavigableString m].
          - exists contents. now rewrite texts_sanitized. }
        destruct Hsan as (cs & Hsan & Hcs). simpl option_map.
        destruct (Hclean _ Hcs) as [H1 H2].
        rewrite Hsan, H1, H2. now repeat split.
      * assert (Hall : Forall independent contents).
        { rewrite Forall_forall in *. rewrite forallb_forall in Hshape.
          intros c Hc. apply (IH c Hc). now apply Hshape. }
        destruct (independent_nodes _ Hall) as (Ha & Hb & Hc).
        rewrite !sanitized_tag, !(new_string_not_script _ _ Hscript).
        rewrite !cleaned_tag, !clean_node_snd_tag, Hmeta. simpl option_map.
        rewrite sanitized_tag, (new_string_not_script _ _ Hscript), Ha, Hb.
        rewrite !sanitize_node_snd, !(own_entries_not_script _ _ Hscript), Hc.
        now repeat split.
Qed.

(** X10. On a document of the shape that the parser builds, the rewriter
    and the normalizer can be run in either order: the document after both
    is the same, and each returns the list of modifications that it returns
    when it runs first. *)
Theorem rewriter_and_normalizer_commute :
  forall soup,
    forallb parsed_shape soup = true ->
    fst (clean_meta_tags (fst (sanitize_javascript soup))) =
    fst (sanitize_javascript (fst (clean_meta_tags soup))) /\
    snd (clean_meta_tags (fst (sanitize_javascript soup))) =
    snd (clean_meta_tags soup) /\
    snd (sanitize_javascript (fst (clean_meta_tags soup))) =
    snd (sanitize_javascript soup).
Proof.
  intros soup Hshape. unfold clean_meta_tags, sanitize_javascript.
  rewrite !sanitize_nodes_fst.
  change (fst (clean_nodes (map sanitized soup) []))
    with (cleaned_nodes (map sanitized soup)).
  change (fst (clean_nodes soup [])) with (cleaned_nodes soup).
  apply independent_nodes. rewrite Forall_forall.
  rewrite forallb_forall in Hshape.
  intros n Hn. apply parsed_shape_independent. now apply Hshape.
Qed.

(** The sample page has the shape of a parsed document. *)
Lemma rewriter_and_normalizer_commute_witness :
  forallb parsed_shape sample_page = true /\
  fst (clean_meta_tags (fst (sanitize_javascript sample_page))) =
  fst (sanitize_javascript (fst (clean_meta_tags sample_page))).
Proof.
  split; [reflexivity|].
  apply (rewriter_and_normalizer_commute sample_page). reflexivity.
Defined.

(** ** The assessor on a page that holds a detected text *)

Lemma assess_detected parse text :
  detect_frame_busting_patterns text <> [] ->
  assess_iframe_compatibility parse text = false.
Proof.
  intros Hne. unfold assess_iframe_compatibility.
  destruct (assess_loop _ _) eqn:H; [|reflexivity].
  apply assess_loop_true in H. now destruct H.
Qed.

(** X11. A page that contains a text on which the detector reports a
    signature is never assessed as compatible, whatever stands around the
    text and whatever the parser makes of the page. *)
Theorem assess_rejects_embedded_signature :
  forall (parse : string -> Document) before text after,
    detect_frame_busting_patterns text <> [] ->
    assess_iframe_compatibility parse
      (String.append before (String.append text after)) = false.
Proof.
  intros parse before text after Hne. apply assess_detected.
  destruct (detect_frame_busting_patterns text) as [|p l] eqn:Hd;
    [contradiction|].
  intros Hnil.
  assert (Hin : In p (detect_frame_busting_patterns text))
    by (rewrite Hd; now left).
  apply (detect_embedded before text after) in Hin.
  now rewrite Hnil in Hin.
Qed.

(** A paragraph that holds the word [framekiller]. *)
Lemma assess_rejects_embedded_signature_witness :
  detect_frame_busting_patterns "framekiller" <> [] /\
  assess_iframe_compatibility text_only_parser
    (String.append "<p>" (String.append "framekiller" "</p>")) = false.
Proof.
  split; [vm_compute; discriminate|].
  apply (assess_rejects_embedded_signature text_only_parser "<p>" "framekiller" "</p>").
  vm_compute. discriminate.
Defined.

(** ** The result of a run *)

Section Run.

Variable parse : string -> Document.
Variable serialize : Document -> string.
Variable fetch : string -> fetched.

Lemma main_pushed input r :
  main parse serialize fetch input = Pushed r ->
  exists u,
    input = Some u /\ truthy u = true /\
    ((exists html, fetch u = Response html /\ r = process parse serialize u html) \/
     (exists str_e, fetch u = Raised str_e /\
                    r = Result u (Some str_e) None false true [] [])).
Proof.
  unfold main. destruct input as [u|]; [|discriminate].
  destruct (truthy u) eqn:Hu; [|discriminate].
  destruct (fetch u) as [html|str_e] eqn:Hf; intros [= <-]; exists u;
    (split; [reflexivity|split; [exact Hu|]]).
  - left. exists html. now split.
  - right. exists str_e. now split.
Qed.

Lemma process_fields u html :
  url (process parse serialize u html) = u /\
  error (process parse serialize u html) = None /\
  html_content (process parse serialize u html) =
  Some (serialize
          (fst (clean_meta_tags (fst (sanitize_javascript (parse html)))))) /\
  iframe_compatible (process parse serialize u html) =
  assess_iframe_compatibility parse
    (serialize (fst (clean_meta_tags (fst (sanitize_javascript (parse html)))))) /\
  original_blocked (process parse serialize u html) =
  negb (assess_iframe_compatibility parse html) /\
  modifications_made (process parse serialize u html) =
  snd (sanitize_javascript (parse html)) ++
  snd (clean_meta_tags (fst (sanitize_javascript (parse html)))) /\
  original_frame_busting_patterns (process parse serialize u html) =
  detect_frame_busting_patterns html.
Proof.
  unfold process.
  destruct (sanitize_javascript (parse html)) as [soup1 js]. cbn [fst snd].
  destruct (clean_meta_tags soup1) as [soup2 meta]. cbn [fst snd].
  simpl. now repeat split.
Qed.

End Run.

(** X12. Whenever a run pushes a result, the input held a non-empty
    address and the result carries it; the result has either an error or
    a page, never both and never neither; and a result with an error is
    never compatible. *)
Theorem result_is_well_formed :
  forall parse serialize fetch input r,
    main parse serialize fetch input = Pushed r ->
    (exists u, input = Some u /\ u <> "" /\ url r = u) /\
    (error r = None <-> html_content r <> None) /\
    (error r <> None -> iframe_compatible r = false).
Proof.
  intros parse serialize fetch input r H.
  destruct (main_pushed parse serialize fetch input r H)
    as (u & -> & Hu & [(html & _ & ->)|(str_e & _ & ->)]).
  - destruct (process_fields parse serialize u html)
      as (Hurl & Herr & Hhtml & _).
    rewrite Hurl, Herr, Hhtml. repeat split.
    + exists u. repeat split. intros ->. discriminate.
    + discriminate.
    + contradiction.
  - simpl. repeat split.
    + exists u. repeat split. intros ->. discriminate.
    + discriminate.
    + intros Hn. now contradiction Hn.
Qed.

(** The run on the sample page. *)
Lemma result_is_well_formed_witness :
  exists r,
    main sample_parser sample_serializer sample_fetch (Some "https://example.com")
    = Pushed r /\
    (exists u, Some "https://example.com" = Some u /\ u <> "" /\ url r = u) /\
    (error r = None <-> html_content r <> None) /\
    (error r <> None -> iframe_compatible r = false).
Proof.
  eexists. split; [reflexivity|].
  apply (result_is_well_formed sample_parser sample_serializer sample_fetch
           (Some "https://example.com")).
  reflexivity.
Defined.

(** X13. In every result, a non-empty list of original signatures comes
    with [original_blocked] set. *)
Theorem reported_signatures_mean_blocked :
  forall parse serialize fetch input r,
    main parse serialize fetch input = Pushed r ->
    original_frame_busting_patterns r <> [] ->
    original_blocked r = true.
Proof.
  intros parse serialize fetch input r H.
  destruct (main_pushed parse serialize fetch input r H)
    as (u & -> & Hu & [(html & _ & ->)|(str_e & _ & ->)]).
  - destruct (process_fields parse serialize u html)
      as (_ & _ & _ & _ & Hblocked & _ & Hpatterns).
    rewrite Hblocked, Hpatterns. intros Hne.
    now rewrite (assess_detected parse html Hne).
  - reflexivity.
Qed.

(** A run on a page that holds the word [framekiller]. *)
Lemma reported_signatures_mean_blocked_witness :
  exists r,
    main text_only_parser (fun _ => "") (fun _ => Response "framekiller")
      (Some "https://example.com") = Pushed r /\
    original_frame_busting_patterns r <> [] /\
    original_blocked r = true.
Proof.
  eexists. split; [reflexivity|]. split; [vm_compute; discriminate|].
  apply (reported_signatures_mean_blocked text_only_parser (fun _ => "")
           (fun _ => Response "framekiller") (Some "https://example.com")).
  - reflexivity.
  - vm_compute. discriminate.
Defined.



(** X15. A result that says compatible carries a page on which the
    detector reports nothing and in which the parser finds neither an
    [x-frame-options] element nor a blocking [content-security-policy]
    element. *)
Theorem compatible_verdict_is_sound :
  forall parse serialize fetch input r,
    main parse serialize fetch input = Pushed r ->
    iframe_compatible r = true ->
    exists html,
      html_content r = Some html /\
      detect_frame_busting_patterns html = [] /\
      (forall meta, In meta (find_all "meta" (parse html)) ->
                    ~ is_x_frame_options meta /\ ~ is_blocking_csp meta).
Proof.
  intros parse serialize fetch input r H.
  destruct (main_pushed parse serialize fetch input r H)
    as (u & -> & Hu & [(original & _ & ->)|(str_e & _ & ->)]);
    [|discriminate].
  destruct (process_fields parse serialize u original)
    as (_ & _ & Hhtml & Hcompatible & _).
  rewrite Hhtml, Hcompatible. intros Hok.
  eexists. split; [reflexivity|].
  unfold assess_iframe_compatibility in Hok.
  apply assess_loop_true in Hok. destruct Hok as (Hd & Hx & Hc).
  split; [assumption|]. intros meta Hin. split; auto.
Qed.

(** A run on a page without markup. *)
Lemma compatible_verdict_is_sound_witness :
  exists r,
    main text_only_parser (fun _ => "plain") (fun _ => Response "plain")
      (Some "https://example.com") = Pushed r /\
    iframe_compatible r = true /\
    exists html,
      html_content r = Some html /\
      detect_frame_busting_patterns html = [] /\
      (forall meta, In meta (find_all "meta" (text_only_parser html)) ->
                    ~ is_x_frame_options meta /\ ~ is_blocking_csp meta).
Proof.
  eexists. split; [reflexivity|]. split; [vm_compute; reflexivity|].
  apply (compatible_verdict_is_sound text_only_parser (fun _ => "plain")
           (fun _ => Response "plain") (Some "https://example.com")).
  - reflexivity.
  - vm_compute. reflexivity.
Defined.
